(** * SES suppression-list manager: the cache behind /list, /update, /remove

    A shallow embedding of [main.go].  The server keeps a sorted slice of
    suppressed addresses and a lowercase-keyed map, both guarded by one
    [sync.RWMutex]; [refresh] rebuilds them from the paginated SES listing
    and [handleRemove] prunes single addresses.

    Handlers are state transformers over a [World]: the server's cache, the
    state of the remote SES account and a log of the lock operations, cache
    writes and remote calls performed so far.  Functions of Go's standard
    library and of the AWS SDK are not part of the repository; they are
    variables of the sections below, constrained only by their documented
    contracts, and instantiated in [Module Fixture] to run the handlers on
    concrete inputs. *)

From Stdlib Require Import ZArith Ascii String.
From stdpp Require Import base option list sorting strings gmap fin_maps.

Local Open Scope string_scope.
Local Open Scope Z_scope.
Local Open Scope list_scope.

(** ** Go values *)

(** [err.Error()] is all the handlers ever look at. *)
Definition error := string.

Inductive result (A : Type) : Type :=
| Ok (a : A)
| Err (e : error).
Arguments Ok {A} a.
Arguments Err {A} e.

(** A [[]string].  The nil slice and an empty non-nil slice differ only for
    [encoding/json]; [None] is nil. *)
Definition slice := option (list string).

Definition elems (s : slice) : list string := default [] s.

(** [append(s, xs...)]: with nothing to add the slice itself comes back,
    nil included. *)
Definition append (s : slice) (xs : list string) : slice :=
  match xs with
  | [] => s
  | _ :: _ => Some (elems s ++ xs)
  end.

(** [aws.ToString]: a nil [*string] reads as the empty string. *)
Definition aws_ToString (p : option string) : string := default EmptyString p.

Definition newline : ascii := "010"%char.
Definition dquote : string := String "034"%char EmptyString.

(** [strings.Split(s, "\n")]: always at least one piece. *)
Fixpoint Split_newline (s : string) : list string :=
  match s with
  | EmptyString => [EmptyString]
  | String c s' =>
      if Ascii.eqb c newline then EmptyString :: Split_newline s'
      else match Split_newline s' with
           | piece :: rest => String c piece :: rest
           | [] => [String c EmptyString]
           end
  end.

(** [strings.Join]. *)
Fixpoint Join (l : list string) (sep : string) : string :=
  match l with
  | [] => EmptyString
  | [x] => x
  | x :: rest => x +:+ sep +:+ Join rest sep
  end.

(** ** The SDK's request and response shapes *)

Module ListSuppressedDestinationsInput.
Record t := mk { NextToken : option string; PageSize : option Z }.
End ListSuppressedDestinationsInput.

Module SuppressedDestinationSummary.
Record t := mk { EmailAddress : option string }.
End SuppressedDestinationSummary.

Module ListSuppressedDestinationsOutput.
Record t := mk {
  SuppressedDestinationSummaries : list SuppressedDestinationSummary.t;
  NextToken : option string
}.
End ListSuppressedDestinationsOutput.

Module DeleteSuppressedDestinationInput.
Record t := mk { EmailAddress : option string }.
End DeleteSuppressedDestinationInput.

Module LI := ListSuppressedDestinationsInput.
Module LO := ListSuppressedDestinationsOutput.
Module DI := DeleteSuppressedDestinationInput.

(** ** Server state *)

Module Server.
Record t := mk {
  list : Datatypes.list string;   (* sorted list of original-case addresses *)
  index : gmap string string      (* lowercase -> original case *)
}.
End Server.

(** What [NewServer] builds before its first refresh. *)
Definition emptyServer : Server.t := Server.mk [] ∅.

(** ** Observable actions *)

Inductive field := FList | FIndex.

Inductive event :=
| EvRLock | EvRUnlock            (* s.listMu.RLock / RUnlock *)
| EvLock | EvUnlock              (* s.listMu.Lock / Unlock *)
| EvWrite (f : field)            (* an assignment to s.list or s.index *)
| EvListCall (i : LI.t)          (* client.ListSuppressedDestinations *)
| EvDeleteCall (i : DI.t).       (* client.DeleteSuppressedDestination *)

Definition is_write (e : event) : bool :=
  match e with EvWrite _ => true | _ => false end.

(** The cache writes of a run of events all sit between one [Lock] and its
    [Unlock], with nothing else in between. *)
Definition one_critical_section (tr : list event) : Prop :=
  ∃ pre body post,
    tr = pre ++ [EvLock] ++ body ++ [EvUnlock] ++ post ∧
    Forall (λ e, is_write e = false) pre ∧
    Forall (λ e, is_write e = true) body ∧
    body ≠ [] ∧
    Forall (λ e, is_write e = false) post.

(** ** HTTP *)

Record Request := mkRequest { Method : string; Body : string }.

Record Response := mkResponse {
  StatusCode : Z;
  ContentType : string;
  ResponseBody : string
}.

Record removeRequest := mkRemoveRequest { Emails : string }.

Record removeResponse := mkRemoveResponse { Results : slice }.

(** The two types of value [respondJSON] is called with. *)
Inductive jsonValue :=
| JStrings (v : slice)
| JRemoveResponse (v : removeResponse).

(** [http.Error]: plain text, the message followed by a newline. *)
Definition http_Error (msg : string) (code : Z) : Response :=
  mkResponse code "text/plain; charset=utf-8" (msg +:+ String newline EmptyString).

(** ** The world a handler runs in *)

(** The server's cache, the state of the SES account behind the client and
    the actions performed so far, oldest first. *)
Record World (Remote : Type) := mkWorld {
  srv : Server.t;
  remote : Remote;
  trace : list event
}.
Arguments mkWorld {Remote} srv remote trace.
Arguments srv {Remote} w.
Arguments remote {Remote} w.
Arguments trace {Remote} w.

(** ** Library functions and an account to run the handlers on

    ASCII versions of the string functions, what [sort.Slice] does on short
    slices, a decoder and an encoder for the JSON the page exchanges, and a
    scripted SES account. *)

Module Fixture.

Definition lower_byte (c : ascii) : ascii :=
  let n := N_of_ascii c in
  if ((65 <=? n) && (n <=? 90))%N then ascii_of_N (n + 32) else c.

(** [strings.ToLower] on ASCII text. *)
Fixpoint ToLower (s : string) : string :=
  match s with
  | EmptyString => EmptyString
  | String c s' => String (lower_byte c) (ToLower s')
  end.

Fixpoint trim_left (s : string) : string :=
  match s with
  | String c s' => if Ascii.is_space c then trim_left s' else s
  | EmptyString => EmptyString
  end.

(** [strings.TrimSpace] on ASCII text. *)
Definition TrimSpace (s : string) : string :=
  String.rev (trim_left (String.rev (trim_left s))).

(** [insertionSort] of package [sort], which is all [sort.Slice] runs on
    a slice of at most 12 elements since Go 1.19.  [sorted] is [data[a:i]]
    read from [i-1] down to [a]; the element at [i] moves left while it is
    less than its left neighbour. *)
Fixpoint sift (lt : string → string → bool) (x : string) (sorted : list string)
    : list string :=
  match sorted with
  | [] => [x]
  | p :: rest => if lt x p then p :: sift lt x rest else x :: sorted
  end.

Fixpoint insertion_loop (lt : string → string → bool) (sorted todo : list string)
    : list string :=
  match todo with
  | [] => reverse sorted
  | x :: todo' => insertion_loop lt (sift lt x sorted) todo'
  end.

Definition insertionSort (data : list string) (lt : string → string → bool)
    : list string :=
  insertion_loop lt [] data.

(** Up to Go 1.18 [sort.Slice] ran [quickSort], which on a slice of at
    most 12 elements does one pass with gap 6 (for each [i >= 6], swap
    [data[i]] and [data[i-6]] when out of order) and then [insertionSort]. *)
Definition swap_if_less (lt : string → string → bool) (data : list string) (i : nat)
    : list string :=
  match data !! i, data !! (i - 6)%nat with
  | Some x, Some y => if lt x y then <[(i - 6)%nat := x]> (<[i := y]> data) else data
  | _, _ => data
  end.

Definition shell_pass (lt : string → string → bool) (data : list string) : list string :=
  foldl (swap_if_less lt) data (seq 6 (length data - 6)).

Definition quickSort_short (data : list string) (lt : string → string → bool)
    : list string :=
  insertionSort (shell_pass lt data) lt.

(** Quoting for text free of control and HTML-sensitive characters. *)
Fixpoint escape (s : string) : string :=
  match s with
  | EmptyString => EmptyString
  | String c s' =>
      if Ascii.eqb c "034"%char || Ascii.eqb c "\"%char
      then String "\"%char (String c (escape s'))
      else String c (escape s')
  end.

Definition json_quote (s : string) : string := dquote +:+ escape s +:+ dquote.

(** Decoding of a one-member object with key [emails], the shape the
    page's script posts; backslash-n, backslash-quote and double
    backslash are the escapes understood. *)
Fixpoint unquote (s : string) : option (string * string) :=
  match s with
  | EmptyString => None
  | String c s' =>
      if Ascii.eqb c "034"%char then Some (EmptyString, s')
      else if Ascii.eqb c "\"%char then
        match s' with
        | String e s'' =>
            let c' := if Ascii.eqb e "n"%char then Some newline
                      else if Ascii.eqb e "034"%char || Ascii.eqb e "\"%char then Some e
                      else None in
            match c', unquote s'' with
            | Some c', Some (v, tl) => Some (String c' v, tl)
            | _, _ => None
            end
        | EmptyString => None
        end
      else match unquote s' with
           | Some (v, tl) => Some (String c v, tl)
           | None => None
           end
  end.

Fixpoint strip_prefix (p s : string) : option string :=
  match p, s with
  | EmptyString, _ => Some s
  | String a p', String b s' => if Ascii.eqb a b then strip_prefix p' s' else None
  | String _ _, EmptyString => None
  end.

Definition json_Decode (body : string) : result removeRequest :=
  match strip_prefix ("{" +:+ dquote +:+ "emails" +:+ dquote +:+ ":" +:+ dquote) body with
  | Some tl =>
      match unquote tl with
      | Some (v, "}") => Ok (mkRemoveRequest v)
      | _ => Err "invalid character"
      end
  | None => Err "invalid character"
  end.

(** A scripted account: the answer to each cursor, and the addresses
    whose deletion is refused. *)
Record Remote := mkRemote {
  script : list (option string * result LO.t);
  refused : list string;
  deleted : list string
}.

Fixpoint answer (sc : list (option string * result LO.t)) (token : option string)
    : result LO.t :=
  match sc with
  | [] => Err "InvalidNextToken"
  | (t, r) :: sc' => if decide (t = token) then r else answer sc' token
  end.

Definition ListSuppressedDestinations (rm : Remote) (i : LI.t) : result LO.t * Remote :=
  (answer (script rm) (LI.NextToken i), rm).

Definition DeleteSuppressedDestination (rm : Remote) (i : DI.t) : option error * Remote :=
  let a := aws_ToString (DI.EmailAddress i) in
  if decide (a ∈ refused rm) then (Some "TooManyRequestsException", rm)
  else (None, mkRemote (script rm) (refused rm) (deleted rm ++ [a])).

Definition page (addrs : list string) (next : option string) : LO.t :=
  LO.mk (map (λ a, SuppressedDestinationSummary.mk (Some a)) addrs) next.

Definition world (s : Server.t) (rm : Remote) : World Remote := mkWorld s rm [].

(** Three pages, the last one empty; deleting c@x.com is refused. *)
Definition account : Remote :=
  mkRemote [ (None, Ok (page ["b@x.com"; "A@x.com"] (Some "t1")));
             (Some "t1", Ok (page ["c@x.com"] (Some "t2")));
             (Some "t2", Ok (page [] None)) ]
           ["c@x.com"] [].

(** The same addresses on a single page. *)
Definition one_page_account : Remote :=
  mkRemote [ (None, Ok (page ["b@x.com"; "A@x.com"; "c@x.com"] None)) ] [] [].

(** The second request fails. *)
Definition broken_account : Remote :=
  mkRemote [ (None, Ok (page ["b@x.com"; "A@x.com"] (Some "t1")));
             (Some "t1", Err "ThrottlingException") ]
           [] [].

(** One page on which B@x.com comes before b@x.com. *)
Definition tied : list string :=
  ["c@x.com"; "B@x.com"; "d@x.com"; "e@x.com"; "f@x.com"; "g@x.com"; "b@x.com"].

Definition tied_account : Remote := mkRemote [ (None, Ok (page tied None)) ] [] [].

(** The cache a refresh against [account] leaves. *)
Definition cached : Server.t :=
  Server.mk ["A@x.com"; "b@x.com"; "c@x.com"]
            (<["a@x.com" := "A@x.com"]>
               (<["b@x.com" := "b@x.com"]> (<["c@x.com" := "c@x.com"]> ∅))).

Definition quoted (s : string) : string := dquote +:+ s +:+ dquote.

Definition post (emails : string) : Request :=
  mkRequest "POST" ("{" +:+ quoted "emails" +:+ ":" +:+ quoted emails +:+ "}").

Definition lines (l : list string) : string :=
  foldr (λ line rest, line +:+ String newline rest) EmptyString l.

(** The world a first refresh against [account] leaves. *)
Definition refreshed : World Remote :=
  mkWorld cached account
          [ EvListCall (LI.mk None (Some 1000));
            EvListCall (LI.mk (Some "t1") (Some 1000));
            EvListCall (LI.mk (Some "t2") (Some 1000));
            EvLock; EvWrite FList; EvWrite FIndex; EvUnlock ].

(** A cache holding B@x.com, and an account that by now lists b@x.com. *)
Definition variant_cache : Server.t :=
  Server.mk ["B@x.com"] (<["b@x.com" := "B@x.com"]> ∅).

Definition variant_account : Remote :=
  mkRemote [ (None, Ok (page ["b@x.com"] None)) ] [] [].

(** A cache in which the service has listed A@x.com twice. *)
Definition doubled : Server.t :=
  Server.mk ["A@x.com"; "A@x.com"; "b@x.com"]
            (<["a@x.com" := "A@x.com"]> (<["b@x.com" := "b@x.com"]> ∅)).

End Fixture.

(** ** The handlers *)

Section Handlers.

(** *** From Go's standard library *)

(** [strings.ToLower] and [strings.TrimSpace] (both Unicode-aware). *)
Variable ToLower : string → string.
Variable TrimSpace : string → string.

(** [sort.Slice], as a function of the slice and of [less] read as a
    comparison of elements.  It draws on no source of randomness, so its
    result is determined by its arguments; it is documented not to be
    stable. *)
Variable sort_Slice : list string → (string → string → bool) → list string.

(** [encoding/json]: how one string is quoted, and how the body of a
    /remove request is decoded into a [removeRequest]. *)
Variable json_quote : string → string.
Variable json_Decode : string → result removeRequest.

(** *** The SES account behind the client *)

Variable Remote : Type.
Variable ListSuppressedDestinations : Remote → LI.t → result LO.t * Remote.
Variable DeleteSuppressedDestination : Remote → DI.t → option error * Remote.

(** *** State passing *)

Definition M (A : Type) : Type := World Remote → A * World Remote.

Definition ret {A} (a : A) : M A := λ w, (a, w).

Definition bind {A B} (m : M A) (k : A → M B) : M B :=
  λ w, let '(a, w') := m w in k a w'.

Notation "'let*' x ':=' m 'in' k" := (bind m (λ x, k))
  (at level 10, x name, m at level 100, k at level 200, only parsing).
Notation "m ';;' k" := (bind m (λ _, k))
  (at level 100, k at level 200, right associativity, only parsing).

Definition emit (e : event) : M unit :=
  λ w, (tt, mkWorld (srv w) (remote w) (trace w ++ [e])).

Definition get_list : M (list string) := λ w, (Server.list (srv w), w).
Definition get_index : M (gmap string string) := λ w, (Server.index (srv w), w).

Definition set_list (l : list string) : M unit :=
  λ w, (tt, mkWorld (Server.mk l (Server.index (srv w))) (remote w)
              (trace w ++ [EvWrite FList])).

Definition set_index (m : gmap string string) : M unit :=
  λ w, (tt, mkWorld (Server.mk (Server.list (srv w)) m) (remote w)
              (trace w ++ [EvWrite FIndex])).

Definition client_List (i : LI.t) : M (result LO.t) :=
  λ w, let '(r, rem) := ListSuppressedDestinations (remote w) i in
       (r, mkWorld (srv w) rem (trace w ++ [EvListCall i])).

Definition client_Delete (i : DI.t) : M (option error) :=
  λ w, let '(r, rem) := DeleteSuppressedDestination (remote w) i in
       (r, mkWorld (srv w) rem (trace w ++ [EvDeleteCall i])).

(** *** refresh *)

(** The comparison handed to [sort.Slice]. *)
Definition less (a b : string) : bool := String.ltb (ToLower a) (ToLower b).

(** The addresses of one page, appended to [emails]. *)
Definition collect (emails : list string) (out : LO.t) : list string :=
  foldl (λ acc d, acc ++ [aws_ToString (SuppressedDestinationSummary.EmailAddress d)])
        emails (LO.SuppressedDestinationSummaries out).

(** The pagination loop.  It runs for as long as the service keeps
    handing out cursors, so it is given fuel; [None] is fuel exhausted. *)
Fixpoint fetch (fuel : nat) (emails : list string) (token : option string)
    (w : World Remote) : option (result (list string) * World Remote) :=
  match fuel with
  | O => None
  | S fuel' =>
      let '(r, w1) := client_List (LI.mk token (Some 1000)) w in
      match r with
      | Err err => Some (Err err, w1)
      | Ok out =>
          let emails' := collect emails out in
          match LO.NextToken out with
          | None => Some (Ok emails', w1)
          | Some t => fetch fuel' emails' (Some t) w1
          end
      end
  end.

(** Build quick-lookup map. *)
Definition build_index (emails : list string) : gmap string string :=
  foldl (λ idx e, <[ToLower e := e]> idx) ∅ emails.

(** Everything after the loop: sort, index, swap under the lock. *)
Definition install (fetched : list string) : M unit :=
  let emails := sort_Slice fetched less in
  let idx := build_index emails in
  emit EvLock ;;
  set_list emails ;;
  set_index idx ;;
  emit EvUnlock.

Definition refresh (fuel : nat) (w : World Remote) : option (option error * World Remote) :=
  match fetch fuel [] None w with
  | None => None
  | Some (Err err, w1) => Some (Some err, w1)
  | Some (Ok emails, w1) => Some (None, snd (install emails w1))
  end.

(** *** JSON out *)

Definition json_strings (v : slice) : string :=
  match v with
  | None => "null"
  | Some l => "[" +:+ Join (map json_quote l) "," +:+ "]"
  end.

Definition json_Marshal (v : jsonValue) : string :=
  match v with
  | JStrings s => json_strings s
  | JRemoveResponse r =>
      "{" +:+ dquote +:+ "results" +:+ dquote +:+ ":" +:+ json_strings (Results r) +:+ "}"
  end.

(** [Encoder.Encode] writes the value and a newline; no header was
    written before, so the status is 200. *)
Definition respondJSON (v : jsonValue) : Response :=
  mkResponse 200 "application/json" (json_Marshal v +:+ String newline EmptyString).

(** *** handleList *)

(** The defensive copy taken under the read lock. *)
Definition snapshot : M slice :=
  emit EvRLock ;;
  let* l := get_list in
  let out := append None l in
  emit EvRUnlock ;;
  ret out.

Definition handleList (r : Request) : M Response :=
  let* out := snapshot in
  ret (respondJSON (JStrings out)).

(** *** handleUpdate *)

Definition handleUpdate (fuel : nat) (r : Request) (w : World Remote)
    : option (Response * World Remote) :=
  if decide (Method r = "POST") then
    match refresh fuel w with
    | None => None
    | Some (Some err, w1) => Some (http_Error err 500, w1)
    | Some (None, w1) => Some (handleList r w1)
    end
  else Some (http_Error "POST required" 405, w).

(** *** handleRemove *)

(** Prepare list of trimmed addresses from user. *)
Definition prepare_inputs (emails : string) : slice :=
  foldl (λ inputs line,
           let line := TrimSpace line in
           if decide (line = EmptyString) then inputs else append inputs [line])
        None (Split_newline emails).

(** Drop the first element equal to [orig]; [None] when there is none
    and the loop falls through without assigning. *)
Fixpoint remove_first (orig : string) (l : list string) : option (list string) :=
  match l with
  | [] => None
  | v :: rest =>
      if decide (v = orig) then Some rest
      else cons v <$> remove_first orig rest
  end.

(** One turn of the loop over [inputs]; the value is the string appended
    to [results]. *)
Definition remove (input : string) : M string :=
  let key := ToLower input in
  emit EvRLock ;;
  let* idx := get_index in
  emit EvRUnlock ;;
  match idx !! key with
  | None => ret ("not found: " +:+ input)
  | Some orig =>
      let* err := client_Delete (DI.mk (Some orig)) in
      match err with
      | Some e => ret ("error: " +:+ input +:+ " (" +:+ e +:+ ")")
      | None =>
          emit EvLock ;;
          (let* idx := get_index in set_index (delete key idx)) ;;
          (let* l := get_list in
           match remove_first orig l with
           | Some l' => set_list l'
           | None => ret tt
           end) ;;
          emit EvUnlock ;;
          ret ("removed: " +:+ orig)
      end
  end.

Fixpoint remove_all (inputs : list string) (results : slice) : M slice :=
  match inputs with
  | [] => ret results
  | input :: rest =>
      let* r := remove input in
      remove_all rest (append results [r])
  end.

Definition handleRemove (r : Request) : M Response :=
  if decide (Method r = "POST") then
    match json_Decode (Body r) with
    | Err _ => ret (http_Error "invalid json" 400)
    | Ok req =>
        let inputs := prepare_inputs (Emails req) in
        let* results := remove_all (elems inputs) None in
        ret (respondJSON (JRemoveResponse (mkRemoveResponse results)))
    end
  else ret (http_Error "POST required" 405).

(** *** Vocabulary of the statements *)

(** What [sort.Slice] asks of [less]. *)
Record StrictWeakOrder (lt : string → string → bool) : Prop := {
  swo_irrefl : ∀ a, lt a a = false;
  swo_trans : ∀ a b c, lt a b = true → lt b c = true → lt a c = true;
  swo_incomp : ∀ a b c, lt a b = false → lt b c = false → lt a c = false
}.

(** Ascending by lowercased form. *)
Definition fold_le (a b : string) : Prop := String.le (ToLower a) (ToLower b).

(** The addresses carried by one page. *)
Definition addresses (out : LO.t) : list string :=
  map (λ d, aws_ToString (SuppressedDestinationSummary.EmailAddress d))
      (LO.SuppressedDestinationSummaries out).

(** The requests that walk a run of pages: the starting cursor first
    (none, for [refresh]), then the cursor each page came with. *)
Definition requests_from (token : option string) (outs : list LO.t) : list LI.t :=
  LI.mk token (Some 1000) :: map (λ out, LI.mk (LO.NextToken out) (Some 1000)) outs.

Definition requests : list LO.t → list LI.t := requests_from None.

(** How the loop ends after a run of pages with cursors: on the error of
    the next call, or with everything collected when the next page has no
    cursor. *)
Definition outcome (emails : list string) (outs : list LO.t) (r : result LO.t)
    : result (list string) :=
  match r with
  | Err err => Err err
  | Ok last => Ok (emails ++ concat (addresses <$> (outs ++ [last])))
  end.

Definition final (r : result LO.t) : Prop :=
  match r with
  | Err _ => True
  | Ok last => LO.NextToken last = None
  end.

(** [follows rm tok outs rm' tok']: asked for 1000 entries at cursor
    [tok], the account in state [rm] answers [outs] one page after the
    other, every one of them with a cursor, the last being [tok']. *)
Inductive follows : Remote → option string → list LO.t → Remote → option string → Prop :=
| follows_nil rm tok : follows rm tok [] rm tok
| follows_cons rm tok out rm1 t outs rm' tok' :
    ListSuppressedDestinations rm (LI.mk tok (Some 1000)) = (Ok out, rm1) →
    LO.NextToken out = Some t →
    follows rm1 (Some t) outs rm' tok' →
    follows rm tok (out :: outs) rm' tok'.

(** Among addresses with the lowercased form of [a], the one latest in
    [l] is what [idx] holds. *)
Definition latest_wins (l : list string) (idx : gmap string string) : Prop :=
  ∀ i a, l !! i = Some a →
    (∀ j b, l !! j = Some b → ToLower b = ToLower a → (j ≤ i)%nat) →
    idx !! ToLower a = Some a.

(** The invariant of the data model. *)
Record cache_inv (s : Server.t) : Prop := {
  inv_keys : ∀ k, is_Some (Server.index s !! k) → ToLower k = k;
  inv_entries : ∀ a, a ∈ Server.list s → Server.index s !! ToLower a = Some a;
  inv_values : ∀ k v, Server.index s !! k = Some v → v ∈ Server.list s;
  inv_keyed : ∀ k v, Server.index s !! k = Some v → ToLower v = k
}.

(** No two cached addresses share a lowercased form. *)
Definition collision_free (s : Server.t) : Prop :=
  NoDup (ToLower <$> Server.list s).

(** The removals of a batch, one after the other. *)
Fixpoint remove_each (inputs : list string) (w : World Remote) : list string * World Remote :=
  match inputs with
  | [] => ([], w)
  | input :: rest =>
      let '(r, w1) := remove input w in
      let '(rs, w2) := remove_each rest w1 in
      (r :: rs, w2)
  end.

(** The three shapes of a per-item result. *)
Definition result_for (input r : string) : Prop :=
  (∃ orig, r = "removed: " +:+ orig) ∨
  r = "not found: " +:+ input ∨
  (∃ detail, r = "error: " +:+ input +:+ " (" +:+ detail +:+ ")").

(** *** NewServer *)

(** [config.LoadDefaultConfig] either fails or yields the configuration the
    client is made from, here the account the client talks to.  The
    second component holds the messages handed to [log.Printf]. *)
Definition NewServer (loaded : result Remote) (fuel : nat)
    : option (result (World Remote) * list string) :=
  match loaded with
  | Err err => Some (Err err, [])
  | Ok rm =>
      (* Populate list on startup (non-fatal if it fails) *)
      match refresh fuel (mkWorld emptyServer rm []) with
      | None => None
      | Some (Some err, w) => Some (Ok w, ["initial refresh failed: " +:+ err])
      | Some (None, w) => Some (Ok w, [])
      end
  end.

(** *** Vocabulary for the handlers as a whole *)

(** The state of [listMu] as one goroutine's actions move it. *)
Inductive lock_state := Free | Shared | Exclusive.

(** What is in order in each state: locks are taken from [Free] and given
    back by their holder, the cache is written under the exclusive lock
    only, the service is called with no lock held. *)
Definition lock_step (st : lock_state) (e : event) : option lock_state :=
  match e, st with
  | EvRLock, Free => Some Shared
  | EvRUnlock, Shared => Some Free
  | EvLock, Free => Some Exclusive
  | EvUnlock, Exclusive => Some Free
  | EvWrite _, Exclusive => Some Exclusive
  | EvListCall _, Free => Some Free
  | EvDeleteCall _, Free => Some Free
  | _, _ => None
  end.

Fixpoint lock_run (st : lock_state) (tr : list event) : option lock_state :=
  match tr with
  | [] => Some st
  | e :: tr' =>
      match lock_step st e with
      | Some st' => lock_run st' tr'
      | None => None
      end
  end.

Definition is_list_call (e : event) : bool :=
  match e with EvListCall _ => true | _ => false end.

Definition is_delete_call (e : event) : bool :=
  match e with EvDeleteCall _ => true | _ => false end.

(** The worlds one request after the other can lead to, starting from
    what [NewServer] returns. *)
Inductive reachable : World Remote → Prop :=
| reach_NewServer loaded fuel w logs :
    NewServer loaded fuel = Some (Ok w, logs) → reachable w
| reach_handleList r w :
    reachable w → reachable (snd (handleList r w))
| reach_handleUpdate fuel r w resp w' :
    reachable w → handleUpdate fuel r w = Some (resp, w') → reachable w'
| reach_handleRemove r w :
    reachable w → reachable (snd (handleRemove r w)).

(** *** The two phases of a removal *)

(** [listMu] is not held from the lookup of an input to the update of the
    cache: the remote delete runs in between, and so may the critical
    sections of other requests.  These are the two locked stretches of one
    turn of the loop in [handleRemove], each of which runs undisturbed. *)
Definition remove_resolve (input : string) : M (option string) :=
  let key := ToLower input in
  emit EvRLock ;;
  let* idx := get_index in
  emit EvRUnlock ;;
  ret (idx !! key).

(** Update in-memory cache. *)
Definition remove_commit (key orig : string) : M unit :=
  emit EvLock ;;
  (let* idx := get_index in set_index (delete key idx)) ;;
  (let* l := get_list in
   match remove_first orig l with
   | Some l' => set_list l'
   | None => ret tt
   end) ;;
  emit EvUnlock.

(** *** Contracts of the library functions *)

Set Default Proof Using "Type".

(** Membership of an event in an explicit run of events. *)
Ltac find_event :=
  simpl;
  repeat first [ apply list_elem_of_here | apply list_elem_of_further ].

(** [sort.Slice] rearranges, and leaves no element less than one before it. *)
Hypothesis sort_Slice_perm : ∀ l lt, sort_Slice l lt ≡ₚ l.
Hypothesis sort_Slice_sorted : ∀ l lt,
  StrictWeakOrder lt → StronglySorted (λ a b, lt b a = false) (sort_Slice l lt).

(** Lowercasing a lowercased string changes nothing. *)
Hypothesis ToLower_idem : ∀ s, ToLower (ToLower s) = ToLower s.

(** *** Order on lowercased forms *)

Lemma ltb_false_le (x y : string) : String.ltb x y = false ↔ String.le y x.
Proof.
  unfold String.le, String.leb, String.ltb.
  rewrite (String.compare_antisym x y).
  destruct (String.compare y x); simpl; split; (done || by intros []).
Qed.

Lemma ltb_true_not_le (x y : string) : String.ltb x y = true ↔ ¬ String.le y x.
Proof.
  rewrite <- ltb_false_le. destruct (String.ltb x y); split; try done;
    intros Hn; by destruct Hn.
Qed.

Lemma less_false_fold_le (a b : string) : less b a = false ↔ fold_le a b.
Proof. unfold less, fold_le. apply ltb_false_le. Qed.

Lemma less_strict_weak_order : StrictWeakOrder less.
Proof.
  split; unfold less.
  - intros a. apply ltb_false_le. reflexivity.
  - intros a b c Hab Hbc.
    apply ltb_true_not_le in Hab. apply ltb_true_not_le in Hbc.
    apply ltb_true_not_le. intros Hca.
    destruct (total String.le (ToLower a) (ToLower b)) as [Hle | Hle];
      [| by apply Hab in Hle].
    apply Hbc. by etrans.
  - intros a b c Hab Hbc.
    apply ltb_false_le in Hab. apply ltb_false_le in Hbc.
    apply ltb_false_le. by etrans.
Qed.

(** *** The pagination loop *)

Lemma collect_addresses (emails : list string) (out : LO.t) :
  collect emails out = emails ++ addresses out.
Proof.
  unfold collect, addresses.
  generalize (LO.SuppressedDestinationSummaries out) as ds.
  intros ds. revert emails.
  induction ds as [| d ds IH]; intros emails; simpl.
  - by rewrite app_nil_r.
  - rewrite IH. by rewrite <- app_assoc.
Qed.

Lemma fetch_follows rm tok outs rm1 tok1 :
  follows rm tok outs rm1 tok1 →
  ∀ fuel emails s tr r rm2,
    ListSuppressedDestinations rm1 (LI.mk tok1 (Some 1000)) = (r, rm2) →
    final r →
    (length outs < fuel)%nat →
    fetch fuel emails tok (mkWorld s rm tr)
    = Some (outcome emails outs r,
            mkWorld s rm2 (tr ++ (EvListCall <$> requests_from tok outs))).
Proof.
  induction 1 as [rm tok | rm tok out rm1 t outs rm' tok' Hcall Hnext _ IH];
    intros fuel emails s tr r rm2 Hlast Hfinal Hfuel.
  - destruct fuel as [| fuel]; [simpl in Hfuel; lia |].
    simpl. unfold client_List. simpl. rewrite Hlast.
    destruct r as [last | err]; simpl in *.
    + rewrite Hfinal, collect_addresses, app_nil_r. done.
    + done.
  - destruct fuel as [| fuel]; [simpl in Hfuel; lia |].
    simpl. unfold client_List at 1. simpl. rewrite Hcall, Hnext.
    rewrite (IH fuel (collect emails out) s _ r rm2 Hlast Hfinal); [| simpl in Hfuel; lia].
    rewrite collect_addresses. f_equal. f_equal.
    + destruct r; simpl; [| done]. by rewrite <- app_assoc.
    + f_equal. rewrite <- app_assoc. simpl. unfold requests_from. simpl.
      done.
Qed.

(** *** The swap *)

Lemma install_spec (fetched : list string) (w : World Remote) :
  install fetched w
  = (tt, mkWorld (Server.mk (sort_Slice fetched less)
                            (build_index (sort_Slice fetched less)))
                 (remote w)
                 (trace w ++ [EvLock; EvWrite FList; EvWrite FIndex; EvUnlock])).
Proof.
  unfold install, bind, emit, set_list, set_index. simpl.
  by rewrite <- !app_assoc.
Qed.

Lemma swap_one_critical_section :
  one_critical_section [EvLock; EvWrite FList; EvWrite FIndex; EvUnlock].
Proof.
  exists [], [EvWrite FList; EvWrite FIndex], [].
  repeat split; auto; try discriminate; repeat constructor.
Qed.

Lemma calls_no_write (reqs : list LI.t) :
  Forall (λ e, is_write e = false) (EvListCall <$> reqs).
Proof. induction reqs; simpl; constructor; auto. Qed.

Lemma one_critical_section_after (pre evs : list event) :
  Forall (λ e, is_write e = false) pre →
  one_critical_section evs → one_critical_section (pre ++ evs).
Proof.
  intros Hpre (p & body & post & -> & Hp & Hbody & Hne & Hpost).
  exists (pre ++ p), body, post. rewrite <- app_assoc.
  repeat split; auto. by apply Forall_app.
Qed.

(** *** The index built from a list *)

Lemma build_index_snoc (l : list string) (x : string) :
  build_index (l ++ [x]) = <[ToLower x := x]> (build_index l).
Proof. unfold build_index. by rewrite foldl_app. Qed.

Lemma build_index_lookup (l : list string) (k v : string) :
  build_index l !! k = Some v → v ∈ l ∧ ToLower v = k.
Proof.
  induction l as [| x l IH] using rev_ind.
  - unfold build_index. simpl. by rewrite lookup_empty.
  - rewrite build_index_snoc. intros Hk.
    destruct (decide (ToLower x = k)) as [<- | Hne].
    + rewrite lookup_insert_eq in Hk. injection Hk as <-.
      split; [| done]. apply elem_of_app. right. by apply list_elem_of_singleton.
    + rewrite lookup_insert_ne in Hk by done.
      destruct (IH Hk) as [Hin Hlow]. split; [| done].
      apply elem_of_app. by left.
Qed.

Lemma build_index_dom (l : list string) (k : string) :
  is_Some (build_index l !! k) ↔ ∃ a, a ∈ l ∧ ToLower a = k.
Proof.
  split.
  - intros [v Hv]. exists v. by apply build_index_lookup.
  - intros (a & Hin & <-). revert Hin.
    induction l as [| x l IH] using rev_ind; [by intros ?%elem_of_nil |].
    rewrite build_index_snoc. intros Hin.
    destruct (decide (ToLower x = ToLower a)) as [-> | Hne].
    + rewrite lookup_insert_eq. by eexists.
    + rewrite lookup_insert_ne by done. apply IH.
      apply elem_of_app in Hin as [Hin | Hin]; [done |].
      apply list_elem_of_singleton in Hin. by subst.
Qed.

Lemma build_index_latest (l : list string) : latest_wins l (build_index l).
Proof.
  induction l as [| x l IH] using rev_ind; intros i a Hi Hlast.
  - by rewrite lookup_nil in Hi.
  - rewrite build_index_snoc.
    destruct (decide (i < length l)%nat) as [Hlt | Hge].
    + rewrite lookup_app_l in Hi by done.
      destruct (decide (ToLower x = ToLower a)) as [Heq | Hne].
      * specialize (Hlast (length l) x).
        rewrite list_lookup_middle in Hlast by done.
        specialize (Hlast eq_refl Heq). lia.
      * rewrite lookup_insert_ne by done. apply (IH i a Hi).
        intros j b Hj Hb. apply (Hlast j b); [| done].
        rewrite lookup_app_l; [done |]. by eapply lookup_lt_Some.
    + assert (i = length l) as ->.
      { apply lookup_lt_Some in Hi. rewrite length_app in Hi. simpl in Hi. lia. }
      rewrite list_lookup_middle in Hi by done. injection Hi as ->.
      by rewrite lookup_insert_eq.
Qed.

Lemma sort_Slice_fold_le (l : list string) : StronglySorted fold_le (sort_Slice l less).
Proof using sort_Slice_sorted.
  pose proof (sort_Slice_sorted l less less_strict_weak_order) as Hs.
  induction Hs as [| a l' Hs IH Hall]; constructor; [done |].
  eapply Forall_impl; [exact Hall |].
  intros b Hb. by apply less_false_fold_le.
Qed.

(** *** refresh *)

Lemma snapshot_spec (w : World Remote) :
  snapshot w = (append None (Server.list (srv w)),
                mkWorld (srv w) (remote w) (trace w ++ [EvRLock; EvRUnlock])).
Proof.
  unfold snapshot, bind, emit, get_list, ret. simpl.
  by rewrite <- app_assoc.
Qed.

Lemma fetch_keeps_cache fuel : ∀ emails tok (w : World Remote) r w',
  fetch fuel emails tok w = Some (r, w') → srv w' = srv w.
Proof.
  induction fuel as [| fuel IH]; intros emails tok w r w'; simpl; [done |].
  unfold client_List.
  destruct (ListSuppressedDestinations (remote w) (LI.mk tok (Some 1000)))
    as [[out | err] rm1]; simpl.
  - destruct (LO.NextToken out) as [t |].
    + intros Hrec. by apply IH in Hrec.
    + by intros [= <- <-].
  - by intros [= <- <-].
Qed.

(** C9: [refresh] walks the listing to its end.  When the account answers
    the cursor-less request and every cursor it hands out with pages
    [outs], each carrying a cursor, and then with a page [last] that
    carries none, the loop (given more fuel than there are pages with a
    cursor) makes exactly the requests [requests outs]: the first without
    cursor, each later one with the cursor of the page before, all asking
    for 1000 entries, none after [last].  What it collects is the
    concatenation of the pages' addresses in that order, and that is what
    [refresh] sorts and installs. *)
Theorem refresh_paginates (w : World Remote) outs rm1 tok1 last rm2 fuel :
  follows (remote w) None outs rm1 tok1 →
  ListSuppressedDestinations rm1 (LI.mk tok1 (Some 1000)) = (Ok last, rm2) →
  LO.NextToken last = None →
  (length outs < fuel)%nat →
  let fetched := concat (addresses <$> (outs ++ [last])) in
  fetch fuel [] None w
  = Some (Ok fetched,
          mkWorld (srv w) rm2 (trace w ++ (EvListCall <$> requests outs)))
  ∧ ∃ w', refresh fuel w = Some (None, w')
      ∧ Server.list (srv w') = sort_Slice fetched less
      ∧ remote w' = rm2
      ∧ trace w' = trace w ++ (EvListCall <$> requests outs)
                     ++ [EvLock; EvWrite FList; EvWrite FIndex; EvUnlock].
Proof.
  intros Hfollows Hlast Hnone Hfuel fetched.
  destruct w as [s rm tr]. simpl in *.
  pose proof (fetch_follows _ _ _ _ _ Hfollows fuel [] s tr (Ok last) rm2
                Hlast Hnone Hfuel) as Hfetch.
  simpl in Hfetch. fold fetched in Hfetch. split; [exact Hfetch |].
  unfold refresh. rewrite Hfetch. rewrite install_spec. simpl.
  eexists. split; [reflexivity |]. simpl.
  repeat split. by rewrite <- app_assoc.
Qed.

(** C1: a [refresh] one of whose page requests fails gives that error
    back and leaves the cache alone.  When the pages [outs] came with
    cursors and the next request is answered with [err], [refresh]
    returns [err], [s.list] and [s.index] are what they were, no cache
    write was performed, and [/list] answers as it did before. *)
Theorem refresh_failure_keeps_cache (w : World Remote) outs rm1 tok1 err rm2 fuel :
  follows (remote w) None outs rm1 tok1 →
  ListSuppressedDestinations rm1 (LI.mk tok1 (Some 1000)) = (Err err, rm2) →
  (length outs < fuel)%nat →
  ∃ w', refresh fuel w = Some (Some err, w')
    ∧ srv w' = srv w
    ∧ trace w' = trace w ++ (EvListCall <$> requests outs)
    ∧ fst (snapshot w') = fst (snapshot w)
    ∧ ∀ r, fst (handleList r w') = fst (handleList r w).
Proof.
  intros Hfollows Hlast Hfuel.
  destruct w as [s rm tr]. simpl in *.
  pose proof (fetch_follows _ _ _ _ _ Hfollows fuel [] s tr (Err err) rm2
                Hlast I Hfuel) as Hfetch.
  simpl in Hfetch. unfold refresh. rewrite Hfetch.
  eexists. split; [reflexivity |]. simpl.
  repeat split.
Qed.

(** C2, as the code has it: a [refresh] all of whose page requests
    succeed leaves in [s.list] a rearrangement of the addresses collected
    from the pages, ascending by lowercased form; [s.index] has exactly
    the lowercased forms of those addresses as keys, each mapped to a
    collected address with that lowercased form, and among addresses that
    share a lowercased form it is the one standing last in the sorted
    [s.list] that the index holds; both fields are assigned between one
    [Lock] and its [Unlock], and nowhere else. *)
Theorem refresh_success_cache (w : World Remote) outs rm1 tok1 last rm2 fuel :
  follows (remote w) None outs rm1 tok1 →
  ListSuppressedDestinations rm1 (LI.mk tok1 (Some 1000)) = (Ok last, rm2) →
  LO.NextToken last = None →
  (length outs < fuel)%nat →
  let fetched := concat (addresses <$> (outs ++ [last])) in
  ∃ w' evs, refresh fuel w = Some (None, w')
    ∧ Server.list (srv w') ≡ₚ fetched
    ∧ StronglySorted fold_le (Server.list (srv w'))
    ∧ (∀ k, is_Some (Server.index (srv w') !! k) ↔ ∃ a, a ∈ fetched ∧ ToLower a = k)
    ∧ (∀ k v, Server.index (srv w') !! k = Some v → v ∈ fetched ∧ ToLower v = k)
    ∧ latest_wins (Server.list (srv w')) (Server.index (srv w'))
    ∧ trace w' = trace w ++ evs
    ∧ one_critical_section evs
    ∧ EvWrite FList ∈ evs ∧ EvWrite FIndex ∈ evs.
Proof using sort_Slice_perm sort_Slice_sorted.
  intros Hfollows Hlast Hnone Hfuel fetched.
  destruct w as [s rm tr]. simpl in *.
  pose proof (fetch_follows _ _ _ _ _ Hfollows fuel [] s tr (Ok last) rm2
                Hlast Hnone Hfuel) as Hfetch.
  simpl in Hfetch. fold fetched in Hfetch.
  unfold refresh. rewrite Hfetch, install_spec. simpl.
  eexists. exists ((EvListCall <$> requests outs)
                   ++ [EvLock; EvWrite FList; EvWrite FIndex; EvUnlock]).
  split; [reflexivity |]. cbn [srv trace Server.list Server.index].
  split; [apply sort_Slice_perm |].
  split; [apply sort_Slice_fold_le |].
  split.
  { intros k. rewrite build_index_dom.
    split; intros (a & Hin & Hk); exists a; split; try done.
    - by rewrite <- (sort_Slice_perm fetched less).
    - by rewrite (sort_Slice_perm fetched less). }
  split.
  { intros k v Hkv. apply build_index_lookup in Hkv as [Hin Hk].
    split; [| done]. by rewrite <- (sort_Slice_perm fetched less). }
  split; [apply build_index_latest |].
  split; [by rewrite <- app_assoc |].
  split.
  { apply one_critical_section_after;
      [apply calls_no_write | apply swap_one_critical_section]. }
  split; apply elem_of_app; right; find_event.
Qed.

(** *** remove *)

Lemma remove_first_Some (x : string) (l l' : list string) :
  remove_first x l = Some l' ↔
  ∃ l1 l2, l = l1 ++ x :: l2 ∧ (x ∉ l1) ∧ l' = l1 ++ l2.
Proof.
  revert l'. induction l as [| v l IH]; intros l'; simpl.
  - split; [done |]. intros (l1 & l2 & Heq & _). by destruct l1.
  - destruct (decide (v = x)) as [-> | Hne].
    + split.
      * intros [= <-]. exists [], l. split; [done |]. split; [apply not_elem_of_nil | done].
      * intros (l1 & l2 & Heq & Hnot & ->). destruct l1 as [| y l1]; simpl in *.
        -- by injection Heq as ->.
        -- injection Heq as -> _. exfalso. apply Hnot. by left.
    + destruct (remove_first x l) as [r |] eqn:Hr; simpl.
      * split.
        -- intros [= <-]. destruct (proj1 (IH r) eq_refl) as (l1 & l2 & -> & Hnot & ->).
           exists (v :: l1), l2. split; [done |]. split; [| done].
           intros [? | ?]%elem_of_cons; [by subst | done].
        -- intros (l1 & l2 & Heq & Hnot & ->). destruct l1 as [| y l1]; simpl in *.
           ++ by injection Heq as -> _.
           ++ injection Heq as -> ->. f_equal. f_equal.
              assert (Some r = Some (l1 ++ l2)) as [= ->]; [| done].
              apply IH. exists l1, l2. split; [done |]. split; [| done].
              intros ?. apply Hnot. by right.
      * split; [done |].
        intros (l1 & l2 & Heq & Hnot & ->). destruct l1 as [| y l1]; simpl in *.
        -- by injection Heq as -> _.
        -- injection Heq as -> ->.
           assert (None = Some (l1 ++ l2)); [| done].
           apply IH. exists l1, l2. split; [done |]. split; [| done].
           intros ?. apply Hnot. by right.
Qed.

Lemma remove_first_None (x : string) (l : list string) :
  remove_first x l = None ↔ x ∉ l.
Proof.
  induction l as [| v l IH]; simpl.
  - split; [intros _; apply not_elem_of_nil | done].
  - destruct (decide (v = x)) as [-> | Hne].
    + split; [done |]. intros Hnot. exfalso. apply Hnot. by left.
    + destruct (remove_first x l) as [r |]; simpl.
      * split; [done |]. intros Hnot.
        assert (x ∉ l) as Hl by (intros ?; apply Hnot; by right).
        by apply IH in Hl.
      * split; [| done]. intros _ [? | ?]%elem_of_cons; [by subst |].
        by apply (proj1 IH).
Qed.

(** The events of a removal that reaches the cache. *)
Lemma remove_not_found (input : string) (w : World Remote) :
  Server.index (srv w) !! ToLower input = None →
  remove input w
  = ("not found: " +:+ input,
     mkWorld (srv w) (remote w) (trace w ++ [EvRLock; EvRUnlock])).
Proof.
  intros Hnone. unfold remove, bind, emit, get_index, ret. simpl.
  rewrite Hnone. by rewrite <- app_assoc.
Qed.

Lemma remove_error (input : string) (w : World Remote) orig e rm' :
  Server.index (srv w) !! ToLower input = Some orig →
  DeleteSuppressedDestination (remote w) (DI.mk (Some orig)) = (Some e, rm') →
  remove input w
  = ("error: " +:+ input +:+ " (" +:+ e +:+ ")",
     mkWorld (srv w) rm'
       (trace w ++ [EvRLock; EvRUnlock; EvDeleteCall (DI.mk (Some orig))])).
Proof.
  intros Hsome Hdel. unfold remove, bind, emit, get_index, client_Delete, ret. simpl.
  rewrite Hsome. simpl. rewrite Hdel. by rewrite <- !app_assoc.
Qed.

Lemma remove_removed (input : string) (w : World Remote) orig rm' :
  Server.index (srv w) !! ToLower input = Some orig →
  DeleteSuppressedDestination (remote w) (DI.mk (Some orig)) = (None, rm') →
  remove input w
  = ("removed: " +:+ orig,
     mkWorld (Server.mk (default (Server.list (srv w))
                                 (remove_first orig (Server.list (srv w))))
                        (delete (ToLower input) (Server.index (srv w))))
             rm'
             (trace w ++ [EvRLock; EvRUnlock; EvDeleteCall (DI.mk (Some orig))]
                ++ [EvLock]
                ++ (EvWrite FIndex ::
                    if remove_first orig (Server.list (srv w)) is Some _
                    then [EvWrite FList] else [])
                ++ [EvUnlock])).
Proof.
  intros Hsome Hdel.
  unfold remove, bind, emit, get_index, get_list, set_index, set_list,
    client_Delete, ret.
  simpl. rewrite Hsome. simpl. rewrite Hdel. simpl.
  destruct (remove_first orig (Server.list (srv w))) as [l' |]; simpl;
    destruct (srv w) as [l idx]; simpl; by rewrite <- !app_assoc.
Qed.

(** C3: a removal that resolves and whose remote delete succeeds.  The
    remote call carries the original-case form [X]; the result is
    "removed: X"; the lowercased key is deleted from [s.index] and the
    first occurrence of [X] leaves [s.list]; the writes sit together
    between one [Lock] and its [Unlock]. *)
Theorem remove_success (input : string) (w : World Remote) X rm' :
  Server.index (srv w) !! ToLower input = Some X →
  DeleteSuppressedDestination (remote w) (DI.mk (Some X)) = (None, rm') →
  ∃ w' evs, remove input w = ("removed: " +:+ X, w')
    ∧ Server.index (srv w') = delete (ToLower input) (Server.index (srv w))
    ∧ (∀ l1 l2, Server.list (srv w) = l1 ++ X :: l2 → X ∉ l1 →
         Server.list (srv w') = l1 ++ l2)
    ∧ (X ∉ Server.list (srv w) → Server.list (srv w') = Server.list (srv w))
    ∧ trace w' = trace w ++ evs
    ∧ EvDeleteCall (DI.mk (Some X)) ∈ evs
    ∧ one_critical_section evs
    ∧ EvWrite FIndex ∈ evs
    ∧ (X ∈ Server.list (srv w) → EvWrite FList ∈ evs).
Proof.
  intros Hsome Hdel. rewrite (remove_removed input w X rm' Hsome Hdel).
  eexists. eexists. split; [reflexivity |]. cbn [srv trace Server.list Server.index].
  split; [done |]. split.
  { intros l1 l2 Hl Hnot.
    assert (remove_first X (Server.list (srv w)) = Some (l1 ++ l2)) as ->; [| done].
    apply remove_first_Some. by exists l1, l2. }
  split.
  { intros Hnot. apply remove_first_None in Hnot. by rewrite Hnot. }
  split; [reflexivity |].
  split; [find_event |].
  split.
  { apply one_critical_section_after; [repeat constructor |].
    exists [], (EvWrite FIndex ::
                if remove_first X (Server.list (srv w)) is Some _
                then [EvWrite FList] else []), [].
    split; [done |]. split; [constructor |].
    split; [destruct (remove_first X (Server.list (srv w))); repeat constructor |].
    split; [done | constructor]. }
  split; [find_event |].
  intros Hin. destruct (remove_first X (Server.list (srv w))) eqn:Hr.
  - find_event.
  - by apply remove_first_None in Hr.
Qed.

(** C4: a removal that does not succeed reports so and leaves the cache
    as it was.  An input whose lowercased form is no key of [s.index]
    yields "not found: " followed by the input; one that resolves but
    whose remote delete fails with [e] yields "error: input (e)"; in both
    cases [s.list] and [s.index] are untouched and no cache write is
    performed. *)
Theorem remove_failure (input : string) (w : World Remote) :
  (Server.index (srv w) !! ToLower input = None →
     fst (remove input w) = "not found: " +:+ input
     ∧ srv (snd (remove input w)) = srv w
     ∧ remote (snd (remove input w)) = remote w
     ∧ trace (snd (remove input w)) = trace w ++ [EvRLock; EvRUnlock])
  ∧ (∀ X e rm',
       Server.index (srv w) !! ToLower input = Some X →
       DeleteSuppressedDestination (remote w) (DI.mk (Some X)) = (Some e, rm') →
       fst (remove input w) = "error: " +:+ input +:+ " (" +:+ e +:+ ")"
       ∧ srv (snd (remove input w)) = srv w
       ∧ trace (snd (remove input w))
         = trace w ++ [EvRLock; EvRUnlock; EvDeleteCall (DI.mk (Some X))]).
Proof.
  split.
  - intros Hnone. by rewrite (remove_not_found input w Hnone).
  - intros X e rm' Hsome Hdel. by rewrite (remove_error input w X e rm' Hsome Hdel).
Qed.

(** C5: removing the same input twice in a row.  When the input resolves
    to [X] and the remote delete succeeds, the first call reports
    "removed: X" and the second, run on the state the first one left,
    reports "not found: " followed by the input, without calling the
    service or touching the cache. *)
Theorem remove_twice (input : string) (w : World Remote) X rm' :
  Server.index (srv w) !! ToLower input = Some X →
  DeleteSuppressedDestination (remote w) (DI.mk (Some X)) = (None, rm') →
  let first := remove input w in
  let second := remove input (snd first) in
  fst first = "removed: " +:+ X
  ∧ fst second = "not found: " +:+ input
  ∧ srv (snd second) = srv (snd first)
  ∧ remote (snd second) = remote (snd first).
Proof.
  intros Hsome Hdel first second. subst first second.
  rewrite (remove_removed input w X rm' Hsome Hdel). cbn [fst snd].
  rewrite remove_not_found; [done |].
  cbn [srv Server.index]. apply lookup_delete_eq.
Qed.

(** *** The invariant *)

Lemma refresh_installs fuel (w w' : World Remote) :
  refresh fuel w = Some (None, w') →
  ∃ fetched, srv w' = Server.mk (sort_Slice fetched less)
                                (build_index (sort_Slice fetched less)).
Proof.
  unfold refresh. destruct (fetch fuel [] None w) as [[[fetched | err] w1] |]; [| done..].
  rewrite install_spec. intros [= <-]. by exists fetched.
Qed.

Lemma refresh_failed_keeps fuel (w w' : World Remote) err :
  refresh fuel w = Some (Some err, w') → srv w' = srv w.
Proof.
  unfold refresh. destruct (fetch fuel [] None w) as [[[fetched | e] w1] |] eqn:Hf; [done | | done].
  intros [= <- <-]. by apply fetch_keeps_cache in Hf.
Qed.

Lemma built_cache_inv (l : list string) :
  NoDup (ToLower <$> l) → cache_inv (Server.mk l (build_index l)).
Proof using ToLower_idem.
  intros Hnd. split; simpl.
  - intros k [v Hv]. apply build_index_lookup in Hv as [_ <-]. apply ToLower_idem.
  - intros a Hin. apply list_elem_of_lookup in Hin as [i Hi].
    apply (build_index_latest l i a Hi). intros j b Hj Hb.
    assert (i = j) as ->; [| done].
    apply (NoDup_lookup (ToLower <$> l) i j (ToLower a)); [done | |].
    + by rewrite list_lookup_fmap, Hi.
    + by rewrite list_lookup_fmap, Hj, <- Hb.
  - intros k v Hv. by apply build_index_lookup in Hv as [? _].
  - intros k v Hv. by apply build_index_lookup in Hv as [_ ?].
Qed.

Lemma pruned_cache_inv (l1 l2 : list string) (X : string) (idx : gmap string string) :
  cache_inv (Server.mk (l1 ++ X :: l2) idx) →
  NoDup (ToLower <$> (l1 ++ X :: l2)) →
  cache_inv (Server.mk (l1 ++ l2) (delete (ToLower X) idx))
  ∧ NoDup (ToLower <$> (l1 ++ l2)).
Proof.
  intros [Hkeys Hentries Hvalues Hkeyed] Hnd. simpl in *.
  rewrite fmap_app, fmap_cons in Hnd.
  apply NoDup_app in Hnd as (Hnd1 & Hdisj & Hnd2).
  apply NoDup_cons in Hnd2 as [HX2 Hnd2].
  assert (ToLower X ∉ ToLower <$> l1) as HX1.
  { intros Hin. apply (Hdisj _ Hin). by left. }
  assert (∀ a, a ∈ l1 ++ l2 → ToLower a ≠ ToLower X) as Hfresh.
  { intros a Hin Heq. apply elem_of_app in Hin as [Hin | Hin].
    - apply HX1. rewrite <- Heq. by apply list_elem_of_fmap_2.
    - apply HX2. rewrite <- Heq. by apply list_elem_of_fmap_2. }
  split.
  - split; simpl.
    + intros k [v Hv]. apply lookup_delete_Some in Hv as [_ Hv]. apply Hkeys. by eexists.
    + intros a Hin. rewrite lookup_delete_ne by (intros Heq; by apply (Hfresh a Hin)).
      apply Hentries. apply elem_of_app.
      apply elem_of_app in Hin as [Hin | Hin]; [by left | right; by right].
    + intros k v Hv. apply lookup_delete_Some in Hv as [Hne Hv].
      pose proof (Hvalues k v Hv) as Hin. pose proof (Hkeyed k v Hv) as Hk.
      assert (v ≠ X) as HvX by (intros ->; by apply Hne).
      apply elem_of_app. apply elem_of_app in Hin as [Hin | Hin]; [by left |].
      apply elem_of_cons in Hin as [Hin | Hin]; [done | by right].
    + intros k v Hv. apply lookup_delete_Some in Hv as [_ Hv]. by apply Hkeyed.
  - rewrite fmap_app. apply NoDup_app. split; [done |]. split; [| done].
    intros k Hk1 Hk2. apply (Hdisj k Hk1). by right.
Qed.

(** *** handleRemove and handleList *)

Lemma elems_append (s : slice) (xs : list string) : elems (append s xs) = elems s ++ xs.
Proof. destruct xs; simpl; [by rewrite app_nil_r | done]. Qed.

Lemma append_append (s : slice) (x : string) (xs : list string) :
  append (append s [x]) xs = append s (x :: xs).
Proof. destruct xs; simpl; [done |]. by rewrite <- app_assoc. Qed.

Lemma prepare_inputs_elems (emails : string) :
  elems (prepare_inputs emails)
  = filter (λ line, line ≠ EmptyString) (TrimSpace <$> Split_newline emails).
Proof.
  unfold prepare_inputs.
  assert (∀ lines acc,
    elems (foldl (λ inputs line,
                    let line := TrimSpace line in
                    if decide (line = EmptyString) then inputs
                    else append inputs [line]) acc lines)
    = elems acc ++ filter (λ line, line ≠ EmptyString) (TrimSpace <$> lines)) as Hgen.
  { induction lines as [| line lines IH]; intros acc; simpl.
    - by rewrite app_nil_r.
    - rewrite IH, filter_cons. destruct (decide (TrimSpace line = EmptyString)) as [He | Hne].
      + by rewrite decide_False by (intros Hn; by apply Hn).
      + rewrite decide_True by done. simpl. by rewrite <- app_assoc. }
  by rewrite Hgen.
Qed.

Lemma remove_all_each (inputs : list string) : ∀ (results : slice) (w : World Remote),
  remove_all inputs results w
  = (append results (fst (remove_each inputs w)), snd (remove_each inputs w)).
Proof.
  induction inputs as [| input rest IH]; intros results w.
  - done.
  - cbn [remove_all remove_each]. unfold bind. destruct (remove input w) as [r w1].
    rewrite IH. destruct (remove_each rest w1) as [rs w2]. cbn [fst snd].
    by rewrite append_append.
Qed.

Lemma remove_result_for (input : string) (w : World Remote) :
  result_for input (fst (remove input w)).
Proof.
  destruct (Server.index (srv w) !! ToLower input) as [X |] eqn:Hidx.
  - destruct (DeleteSuppressedDestination (remote w) (DI.mk (Some X)))
      as [[e |] rm'] eqn:Hdel.
    + rewrite (remove_error input w X e rm' Hidx Hdel).
      right. right. by exists e.
    + rewrite (remove_removed input w X rm' Hidx Hdel). left. by exists X.
  - rewrite (remove_not_found input w Hidx). right. by left.
Qed.

Lemma remove_each_results (inputs : list string) : ∀ w : World Remote,
  Forall2 result_for inputs (fst (remove_each inputs w)).
Proof.
  induction inputs as [| input rest IH]; intros w; simpl; [constructor |].
  pose proof (remove_result_for input w) as Hr.
  destruct (remove input w) as [r w1]. specialize (IH w1).
  destruct (remove_each rest w1) as [rs w2]. by constructor.
Qed.

(** C7: a POST to /remove whose body decodes.  The lines of [emails]
    are split at newlines and trimmed, the empty ones dropped; [remove]
    runs on the remaining ones in order, each on the state its predecessor
    left; the answer has status 200 and carries, under [results], one
    string for each of those lines, in their order, each of one of the
    three shapes. *)
Theorem handleRemove_results (body : string) (req : removeRequest) (w : World Remote) :
  json_Decode body = Ok req →
  let inputs := filter (λ line, line ≠ EmptyString)
                       (TrimSpace <$> Split_newline (Emails req)) in
  let results := fst (remove_each inputs w) in
  let response := fst (handleRemove (mkRequest "POST" body) w) in
  snd (handleRemove (mkRequest "POST" body) w) = snd (remove_each inputs w)
  ∧ StatusCode response = 200
  ∧ ResponseBody response
    = ("{" +:+ dquote +:+ "results" +:+ dquote +:+ ":"
       +:+ json_strings (append None results) +:+ "}") +:+ String newline EmptyString
  ∧ length results = length inputs
  ∧ Forall2 result_for inputs results.
Proof.
  intros Hdec inputs results response. subst response results.
  unfold handleRemove. simpl. rewrite Hdec. unfold bind, ret.
  rewrite remove_all_each, prepare_inputs_elems. fold inputs. simpl.
  split; [done |]. split; [done |]. split; [done |].
  pose proof (remove_each_results inputs w) as Hall.
  split; [| done]. symmetry. by eapply Forall2_length.
Qed.

(** C10: empty slices reach the encoder as nil.  With nothing cached the
    copy made by [handleList] is the nil slice and the body of /list is
    [null] and a newline; the copy is never an empty non-nil slice, so
    the body is never [[]].  When no line of [emails] survives trimming,
    [results] is nil and the body of /remove is [{"results":null}] and a
    newline. *)
Theorem empty_slices_encode_null :
  (∀ r (w : World Remote),
     Server.list (srv w) = [] →
     fst (snapshot w) = None
     ∧ ResponseBody (fst (handleList r w)) = "null" +:+ String newline EmptyString)
  ∧ (∀ w : World Remote, fst (snapshot w) ≠ Some [])
  ∧ (∀ body req (w : World Remote),
       json_Decode body = Ok req →
       Forall (λ line, TrimSpace line = EmptyString) (Split_newline (Emails req)) →
       fst (handleRemove (mkRequest "POST" body) w)
       = respondJSON (JRemoveResponse (mkRemoveResponse None))
       ∧ ResponseBody (fst (handleRemove (mkRequest "POST" body) w))
         = "{" +:+ dquote +:+ "results" +:+ dquote +:+ ":null}"
           +:+ String newline EmptyString).
Proof.
  split; [| split].
  - intros r w Hempty. unfold handleList, bind, ret.
    rewrite snapshot_spec, Hempty. done.
  - intros w. rewrite snapshot_spec. simpl.
    by destruct (Server.list (srv w)).
  - intros body req w Hdec Hblank.
    unfold handleRemove. simpl. rewrite Hdec. unfold bind, ret.
    rewrite remove_all_each, prepare_inputs_elems.
    assert (filter (λ line, line ≠ EmptyString)
                   (TrimSpace <$> Split_newline (Emails req)) = []) as ->.
    { induction Hblank as [| line lines Hline _ IH]; [done |].
      rewrite fmap_cons, filter_cons, decide_False; [done |].
      intros Hn. by apply Hn. }
    done.
Qed.

(** *** What a returning refresh tells about the pages *)

Lemma fetch_inversion fuel : ∀ emails tok (w : World Remote) r w',
  fetch fuel emails tok w = Some (r, w') →
  ∃ outs rm1 tok1 res,
    follows (remote w) tok outs rm1 tok1
    ∧ ListSuppressedDestinations rm1 (LI.mk tok1 (Some 1000)) = (res, remote w')
    ∧ final res
    ∧ (length outs < fuel)%nat
    ∧ r = outcome emails outs res
    ∧ srv w' = srv w
    ∧ trace w' = trace w ++ (EvListCall <$> requests_from tok outs).
Proof.
  induction fuel as [| fuel IH]; intros emails tok w r w'; simpl; [done |].
  unfold client_List.
  destruct (ListSuppressedDestinations (remote w) (LI.mk tok (Some 1000)))
    as [[out | err] rm1] eqn:Hcall; simpl.
  - destruct (LO.NextToken out) as [t |] eqn:Hnext.
    + intros Hrec. apply IH in Hrec
        as (outs & rm2 & tok2 & res & Hf & Hlast & Hfin & Hlen & -> & Hs & Htr).
      simpl in *. exists (out :: outs), rm2, tok2, res.
      split; [by eapply follows_cons |]. split; [done |]. split; [done |].
      split; [simpl; lia |]. split.
      { rewrite collect_addresses. destruct res; simpl; [| done].
        by rewrite <- app_assoc. }
      split; [done |]. rewrite Htr, <- app_assoc. simpl.
      unfold requests_from. simpl. by rewrite Hnext.
    + intros [= <- <-]. exists [], (remote w), tok, (Ok out). simpl.
      split; [apply follows_nil |]. split; [done |]. split; [done |].
      split; [lia |]. split; [| done].
      by rewrite collect_addresses, app_nil_r.
  - intros [= <- <-]. exists [], (remote w), tok, (Err err). simpl.
    split; [apply follows_nil |]. split; [done |]. split; [done |].
    split; [lia | done].
Qed.

(** X1: [refresh] reports nothing the pages do not justify.  Whenever it
    returns, the account has answered a run of requests with pages that
    carry cursors and then one more request; if [refresh] returns an
    error, it is the error of that last request and the cache is as
    before; if it returns nil, that last answer was a page without
    cursor and [s.list] is the sort of all the pages' addresses. *)
Theorem refresh_sound fuel (w w' : World Remote) (r : option error) :
  refresh fuel w = Some (r, w') →
  ∃ outs rm1 tok1 res,
    follows (remote w) None outs rm1 tok1
    ∧ ListSuppressedDestinations rm1 (LI.mk tok1 (Some 1000)) = (res, remote w')
    ∧ (length outs < fuel)%nat
    ∧ match r, res with
      | Some err, Err e => e = err ∧ srv w' = srv w
      | None, Ok last =>
          LO.NextToken last = None
          ∧ Server.list (srv w')
            = sort_Slice (concat (addresses <$> (outs ++ [last]))) less
          ∧ Server.index (srv w') = build_index (Server.list (srv w'))
      | _, _ => False
      end.
Proof.
  unfold refresh.
  destruct (fetch fuel [] None w) as [[fr w1] |] eqn:Hfetch; [| done].
  apply fetch_inversion in Hfetch
    as (outs & rm1 & tok1 & res & Hf & Hlast & Hfin & Hlen & -> & Hs & Htr).
  destruct res as [last | e]; cbn [outcome].
  - rewrite install_spec. intros [= <- <-]. simpl.
    exists outs, rm1, tok1, (Ok last). by repeat split.
  - intros [= <- <-]. exists outs, rm1, tok1, (Err e). by repeat split.
Qed.

(** *** Traces of the handlers *)

Lemma lock_run_app (st : lock_state) (tr1 tr2 : list event) :
  lock_run st (tr1 ++ tr2)
  = match lock_run st tr1 with
    | Some st' => lock_run st' tr2
    | None => None
    end.
Proof.
  revert st. induction tr1 as [| e tr1 IH]; intros st; simpl; [done |].
  destruct (lock_step st e); [apply IH | done].
Qed.

Lemma lock_run_extend (tr evs : list event) :
  lock_run Free tr = Some Free → lock_run Free evs = Some Free →
  lock_run Free (tr ++ evs) = Some Free.
Proof. intros Htr Hevs. by rewrite lock_run_app, Htr. Qed.

Lemma lock_run_calls (reqs : list LI.t) : lock_run Free (EvListCall <$> reqs) = Some Free.
Proof. induction reqs; simpl; done. Qed.

Lemma calls_no_delete (reqs : list LI.t) :
  Forall (λ e, is_delete_call e = false) (EvListCall <$> reqs).
Proof. induction reqs; simpl; constructor; auto. Qed.

Lemma refresh_trace fuel (w w' : World Remote) r :
  refresh fuel w = Some (r, w') →
  ∃ reqs, trace w' = trace w ++ (EvListCall <$> reqs)
                       ++ match r with
                          | None => [EvLock; EvWrite FList; EvWrite FIndex; EvUnlock]
                          | Some _ => []
                          end.
Proof.
  unfold refresh.
  destruct (fetch fuel [] None w) as [[fr w1] |] eqn:Hfetch; [| done].
  apply fetch_inversion in Hfetch
    as (outs & rm1 & tok1 & res & _ & _ & _ & _ & -> & _ & Htr).
  intros Hr. exists (requests_from None outs).
  destruct res as [last | e]; cbn [outcome] in Hr.
  - rewrite install_spec in Hr. injection Hr as <- <-. simpl.
    by rewrite Htr, <- app_assoc.
  - injection Hr as <- <-. by rewrite app_nil_r.
Qed.

Lemma refresh_trace_ok fuel (w w' : World Remote) r :
  refresh fuel w = Some (r, w') →
  ∃ evs, trace w' = trace w ++ evs
    ∧ lock_run Free evs = Some Free
    ∧ Forall (λ e, is_delete_call e = false) evs.
Proof.
  intros Hr. apply refresh_trace in Hr as [reqs Htr].
  eexists. split; [exact Htr |]. split.
  - rewrite lock_run_app, lock_run_calls. by destruct r.
  - apply Forall_app. split; [apply calls_no_delete |].
    destruct r; repeat constructor.
Qed.

(** Everything one turn of the removal loop does, in one place. *)
Lemma remove_run (input : string) (w : World Remote) :
  ∃ evs,
    trace (snd (remove input w)) = trace w ++ evs
    ∧ lock_run Free evs = Some Free
    ∧ Forall (λ e, is_list_call e = false) evs
    ∧ (∀ i, EvDeleteCall i ∈ evs →
         ∃ v, Server.index (srv w) !! ToLower input = Some v ∧ i = DI.mk (Some v))
    ∧ Server.index (srv (snd (remove input w))) ⊆ Server.index (srv w)
    ∧ Server.list (srv (snd (remove input w))) `sublist_of` Server.list (srv w).
Proof.
  destruct (Server.index (srv w) !! ToLower input) as [X |] eqn:Hidx.
  - destruct (DeleteSuppressedDestination (remote w) (DI.mk (Some X)))
      as [[e |] rm'] eqn:Hdel.
    + rewrite (remove_error input w X e rm' Hidx Hdel). cbn [snd trace srv].
      eexists. split; [reflexivity |]. split; [done |].
      split; [repeat constructor |]. split; [| done].
      intros i Hi. exists X. split; [done |].
      apply elem_of_cons in Hi as [Hi | Hi]; [done |].
      apply elem_of_cons in Hi as [Hi | Hi]; [done |].
      apply list_elem_of_singleton in Hi. by injection Hi.
    + rewrite (remove_removed input w X rm' Hidx Hdel). cbn [snd trace srv].
      eexists. split; [reflexivity |]. split.
      { by destruct (remove_first X (Server.list (srv w))). }
      split.
      { destruct (remove_first X (Server.list (srv w))); repeat constructor. }
      split.
      { intros i Hi. exists X. split; [done |].
        apply elem_of_cons in Hi as [Hi | Hi]; [done |].
        apply elem_of_cons in Hi as [Hi | Hi]; [done |].
        apply elem_of_cons in Hi as [Hi | Hi]; [by injection Hi |].
        exfalso. simpl in Hi.
        apply elem_of_cons in Hi as [Hi | Hi]; [done |].
        apply elem_of_cons in Hi as [Hi | Hi]; [done |].
        destruct (remove_first X (Server.list (srv w))); simpl in Hi.
        - apply elem_of_cons in Hi as [Hi | Hi]; [done |].
          apply list_elem_of_singleton in Hi. done.
        - apply list_elem_of_singleton in Hi. done. }
      cbn [Server.index Server.list].
      split; [apply delete_subseteq |].
      destruct (remove_first X (Server.list (srv w))) as [l' |] eqn:Hrm; simpl; [| done].
      apply remove_first_Some in Hrm as (l1 & l2 & -> & _ & ->).
      apply sublist_app; [done |]. by apply sublist_cons.
  - rewrite (remove_not_found input w Hidx). cbn [snd trace srv].
    eexists. split; [reflexivity |]. split; [done |].
    split; [repeat constructor |]. split; [| done].
    intros i Hi.
    apply elem_of_cons in Hi as [Hi | Hi]; [done |].
    apply list_elem_of_singleton in Hi. done.
Qed.

Lemma remove_each_run (inputs : list string) : ∀ w : World Remote,
  ∃ evs,
    trace (snd (remove_each inputs w)) = trace w ++ evs
    ∧ lock_run Free evs = Some Free
    ∧ Forall (λ e, is_list_call e = false) evs
    ∧ (∀ i, EvDeleteCall i ∈ evs →
         ∃ k v, Server.index (srv w) !! k = Some v ∧ i = DI.mk (Some v))
    ∧ Server.index (srv (snd (remove_each inputs w))) ⊆ Server.index (srv w)
    ∧ Server.list (srv (snd (remove_each inputs w))) `sublist_of` Server.list (srv w).
Proof.
  induction inputs as [| input rest IH]; intros w.
  - exists []. simpl. rewrite app_nil_r. repeat split; try done.
    intros i Hi. by apply elem_of_nil in Hi.
  - cbn [remove_each].
    destruct (remove_run input w) as (evs1 & Htr1 & Hl1 & Hc1 & Hd1 & Hi1 & Hs1).
    destruct (remove input w) as [r w1]. cbn [snd] in *.
    destruct (IH w1) as (evs2 & Htr2 & Hl2 & Hc2 & Hd2 & Hi2 & Hs2).
    destruct (remove_each rest w1) as [rs w2]. cbn [snd] in *.
    exists (evs1 ++ evs2).
    split; [by rewrite Htr2, Htr1, <- app_assoc |].
    split; [by rewrite lock_run_app, Hl1 |].
    split; [by apply Forall_app |].
    split.
    { intros i Hi. apply elem_of_app in Hi as [Hi | Hi].
      - destruct (Hd1 i Hi) as (v & Hv & ->). by exists (ToLower input), v.
      - destruct (Hd2 i Hi) as (k & v & Hv & ->). exists k, v. split; [| done].
        by eapply lookup_weaken. }
    split; by etrans.
Qed.

Lemma handleRemove_world (r : Request) (w : World Remote) :
  snd (handleRemove r w) = w
  ∨ ∃ inputs, snd (handleRemove r w) = snd (remove_each inputs w).
Proof.
  unfold handleRemove. destruct (decide (Method r = "POST")); [| by left].
  destruct (json_Decode (Body r)) as [req | err]; [| by left].
  right. unfold bind, ret. rewrite remove_all_each. by eexists.
Qed.

Lemma handleRemove_run (r : Request) (w : World Remote) :
  ∃ evs,
    trace (snd (handleRemove r w)) = trace w ++ evs
    ∧ lock_run Free evs = Some Free
    ∧ Forall (λ e, is_list_call e = false) evs
    ∧ (∀ i, EvDeleteCall i ∈ evs →
         ∃ k v, Server.index (srv w) !! k = Some v ∧ i = DI.mk (Some v))
    ∧ Server.index (srv (snd (handleRemove r w))) ⊆ Server.index (srv w)
    ∧ Server.list (srv (snd (handleRemove r w))) `sublist_of` Server.list (srv w).
Proof.
  destruct (handleRemove_world r w) as [-> | [inputs ->]].
  - exists []. rewrite app_nil_r. repeat split; try done.
    intros i Hi. by apply elem_of_nil in Hi.
  - apply remove_each_run.
Qed.

Lemma handleList_world (r : Request) (w : World Remote) :
  snd (handleList r w)
  = mkWorld (srv w) (remote w) (trace w ++ [EvRLock; EvRUnlock]).
Proof. unfold handleList, bind, ret. by rewrite snapshot_spec. Qed.

Lemma handleUpdate_cases fuel (r : Request) (w w' : World Remote) (resp : Response) :
  handleUpdate fuel r w = Some (resp, w') →
  (Method r ≠ "POST" ∧ resp = http_Error "POST required" 405 ∧ w' = w)
  ∨ (Method r = "POST"
     ∧ ∃ err, refresh fuel w = Some (Some err, w') ∧ resp = http_Error err 500)
  ∨ (Method r = "POST"
     ∧ ∃ w1, refresh fuel w = Some (None, w1) ∧ handleList r w1 = (resp, w')).
Proof.
  unfold handleUpdate. destruct (decide (Method r = "POST")) as [Hpost | Hother].
  - destruct (refresh fuel w) as [[[err |] w1] |].
    + intros [= <- <-]. right. left. split; [exact Hpost |].
      exists err. split; reflexivity.
    + intros Hl. right. right. split; [exact Hpost |].
      exists w1. split; [reflexivity |].
      destruct (handleList r w1) as [resp1 w2]. by injection Hl as <- <-.
    + intros [=].
  - intros [= <- <-]. by left.
Qed.

(** X2: every handler keeps to the locking discipline.  Started with the
    lock free, [handleList], [handleRemove], [handleUpdate] and [refresh]
    end with the lock free again, and on the way they write [s.list] and
    [s.index] only while holding the exclusive lock, never take a lock
    they already hold, and never call the service while holding one. *)
Theorem handlers_lock_discipline (w : World Remote) :
  lock_run Free (trace w) = Some Free →
  (∀ r, lock_run Free (trace (snd (handleList r w))) = Some Free)
  ∧ (∀ r, lock_run Free (trace (snd (handleRemove r w))) = Some Free)
  ∧ (∀ fuel r resp w',
       handleUpdate fuel r w = Some (resp, w') →
       lock_run Free (trace w') = Some Free)
  ∧ (∀ fuel err w',
       refresh fuel w = Some (err, w') →
       lock_run Free (trace w') = Some Free).
Proof.
  intros Hfree.
  assert (∀ fuel err w', refresh fuel w = Some (err, w') →
                         lock_run Free (trace w') = Some Free) as Hrefresh.
  { intros fuel err w' Hr.
    apply refresh_trace_ok in Hr as (evs & -> & Hl & _). by apply lock_run_extend. }
  split; [| split; [| split; [| exact Hrefresh]]].
  - intros r. rewrite handleList_world. simpl. by apply lock_run_extend.
  - intros r. destruct (handleRemove_run r w) as (evs & -> & Hl & _).
    by apply lock_run_extend.
  - intros fuel r resp w' Hu.
    apply handleUpdate_cases in Hu
      as [(_ & _ & ->) | [(_ & err & Hr & _) | (_ & w1 & Hr & Hl)]].
    + done.
    + by eapply Hrefresh.
    + apply Hrefresh in Hr. apply (f_equal snd) in Hl. cbn [snd] in Hl. subst w'.
      rewrite handleList_world. simpl. by apply lock_run_extend.
Qed.

(** X3: which handler talks to which remote operation.  [refresh] and
    [handleUpdate] never call [DeleteSuppressedDestination]; [handleRemove]
    never calls [ListSuppressedDestinations]; [handleList] calls neither
    and leaves both the cache and the account as they are. *)
Theorem remote_calls_by_handler (w : World Remote) :
  (∀ fuel err w',
     refresh fuel w = Some (err, w') →
     ∃ evs, trace w' = trace w ++ evs ∧ Forall (λ e, is_delete_call e = false) evs)
  ∧ (∀ fuel r resp w',
       handleUpdate fuel r w = Some (resp, w') →
       ∃ evs, trace w' = trace w ++ evs ∧ Forall (λ e, is_delete_call e = false) evs)
  ∧ (∀ r, ∃ evs, trace (snd (handleRemove r w)) = trace w ++ evs
                 ∧ Forall (λ e, is_list_call e = false) evs)
  ∧ (∀ r, srv (snd (handleList r w)) = srv w
          ∧ remote (snd (handleList r w)) = remote w
          ∧ trace (snd (handleList r w)) = trace w ++ [EvRLock; EvRUnlock]).
Proof.
  assert (∀ fuel err w', refresh fuel w = Some (err, w') →
            ∃ evs, trace w' = trace w ++ evs
                   ∧ Forall (λ e, is_delete_call e = false) evs) as Hrefresh.
  { intros fuel err w' Hr.
    apply refresh_trace_ok in Hr as (evs & Htr & _ & Hnd). by exists evs. }
  split; [exact Hrefresh |]. split; [| split].
  - intros fuel r resp w' Hu.
    apply handleUpdate_cases in Hu
      as [(_ & _ & ->) | [(_ & err & Hr & _) | (_ & w1 & Hr & Hl)]].
    + exists []. by rewrite app_nil_r.
    + by eapply Hrefresh.
    + apply Hrefresh in Hr as (evs & Htr & Hnd).
      apply (f_equal snd) in Hl. cbn [snd] in Hl. subst w'.
      rewrite handleList_world. simpl. exists (evs ++ [EvRLock; EvRUnlock]).
      split; [by rewrite Htr, <- app_assoc |].
      apply Forall_app. split; [done | repeat constructor].
  - intros r. destruct (handleRemove_run r w) as (evs & Htr & _ & Hnl & _).
    by exists evs.
  - intros r. by rewrite handleList_world.
Qed.

(** X4: [handleRemove] only ever takes away.  Whatever the request, the
    entries afterwards are the entries before with some of them left out,
    in the same order, and every index entry afterwards was there before
    with the same value. *)
Theorem handleRemove_shrinks (r : Request) (w : World Remote) :
  Server.list (srv (snd (handleRemove r w))) `sublist_of` Server.list (srv w)
  ∧ Server.index (srv (snd (handleRemove r w))) ⊆ Server.index (srv w)
  ∧ (length (Server.list (srv (snd (handleRemove r w))))
     ≤ length (Server.list (srv w)))%nat.
Proof.
  destruct (handleRemove_run r w) as (evs & _ & _ & _ & _ & Hidx & Hsub).
  split; [done |]. split; [done |]. by apply sublist_length.
Qed.


(** *** Batches, and removal after a refresh *)

Lemma remove_each_unknown (inputs : list string) : ∀ w : World Remote,
  Forall (λ input, Server.index (srv w) !! ToLower input = None) inputs →
  remove_each inputs w
  = ((λ input, "not found: " +:+ input) <$> inputs,
     mkWorld (srv w) (remote w)
             (trace w ++ concat ((λ _, [EvRLock; EvRUnlock]) <$> inputs))).
Proof.
  induction inputs as [| input rest IH]; intros w Hall.
  - simpl. rewrite app_nil_r. by destruct w.
  - apply Forall_cons in Hall as [Hnone Hrest].
    cbn [remove_each]. rewrite (remove_not_found input w Hnone).
    rewrite IH by done. simpl. by rewrite <- app_assoc.
Qed.

(** X6: a batch of addresses the cache does not know.  When no line of a
    decodable /remove request lowercases to a key of [s.index], every line
    is answered "not found" in order, the cache and the account are left
    exactly as they were, and the service is not called at all: the only
    actions are one read-lock bracket per line. *)
Theorem handleRemove_unknown_batch (body : string) (req : removeRequest)
    (w : World Remote) :
  json_Decode body = Ok req →
  let inputs := filter (λ line, line ≠ EmptyString)
                       (TrimSpace <$> Split_newline (Emails req)) in
  Forall (λ input, Server.index (srv w) !! ToLower input = None) inputs →
  handleRemove (mkRequest "POST" body) w
  = (respondJSON (JRemoveResponse (mkRemoveResponse
       (append None ((λ input, "not found: " +:+ input) <$> inputs)))),
     mkWorld (srv w) (remote w)
             (trace w ++ concat ((λ _, [EvRLock; EvRUnlock]) <$> inputs))).
Proof.
  intros Hdec inputs Hall.
  unfold handleRemove. simpl. rewrite Hdec. unfold bind, ret.
  rewrite remove_all_each, prepare_inputs_elems. fold inputs.
  by rewrite remove_each_unknown.
Qed.

(** X7: what /list shows right after a refresh can be removed under any
    spelling.  After a successful [refresh], an input whose lowercased
    form is that of a listed address always resolves, to a listed address
    with that lowercased form, so [remove] goes on to the remote delete
    and reports "removed" or "error", never "not found". *)
Theorem refreshed_entries_resolve fuel (w w' : World Remote) (a input : string) :
  refresh fuel w = Some (None, w') →
  a ∈ Server.list (srv w') →
  ToLower input = ToLower a →
  ∃ b, Server.index (srv w') !! ToLower input = Some b
    ∧ b ∈ Server.list (srv w')
    ∧ ToLower b = ToLower a
    ∧ fst (remove input w')
      = match fst (DeleteSuppressedDestination (remote w') (DI.mk (Some b))) with
        | None => "removed: " +:+ b
        | Some e => "error: " +:+ input +:+ " (" +:+ e +:+ ")"
        end.
Proof.
  intros Hr Hin Hlow.
  apply refresh_installs in Hr as [fetched Hs]. rewrite Hs in *. simpl in *.
  destruct (proj2 (build_index_dom (sort_Slice fetched less) (ToLower input)))
    as [b Hb]; [by exists a |].
  exists b. pose proof (build_index_lookup _ _ _ Hb) as [Hbin Hblow].
  split; [done |]. split; [done |]. split; [by rewrite Hblow |].
  assert (Server.index (srv w') !! ToLower input = Some b) as Hidx by by rewrite Hs.
  destruct (DeleteSuppressedDestination (remote w') (DI.mk (Some b)))
    as [[e |] rm'] eqn:Hdel; simpl.
  - by rewrite (remove_error input w' b e rm' Hidx Hdel).
  - by rewrite (remove_removed input w' b rm' Hidx Hdel).
Qed.

Lemma filter_absent (X : string) (l : list string) :
  X ∉ l → filter (λ a, a ≠ X) l = l.
Proof.
  induction l as [| y l IH]; intros Hnot; [done |].
  apply not_elem_of_cons in Hnot as [Hne Hnot].
  rewrite filter_cons_True by (intros ->; by apply Hne). by rewrite IH.
Qed.

(** X8: removal followed by listing.  In a cache that satisfies the
    invariant of the data model and has no two addresses with the same
    lowercased form, a successful removal of [X] leaves exactly the old
    entries other than [X], in their order, and that is what [/list]
    returns next. *)
Theorem remove_then_list (input : string) (w : World Remote) X rm' :
  cache_inv (srv w) →
  collision_free (srv w) →
  Server.index (srv w) !! ToLower input = Some X →
  DeleteSuppressedDestination (remote w) (DI.mk (Some X)) = (None, rm') →
  let w' := snd (remove input w) in
  Server.list (srv w') = filter (λ a, a ≠ X) (Server.list (srv w))
  ∧ (X ∉ Server.list (srv w'))
  ∧ elems (fst (snapshot w')) = filter (λ a, a ≠ X) (Server.list (srv w)).
Proof.
  intros Hinv Hfree Hidx Hdel w'. subst w'.
  rewrite (remove_removed input w X rm' Hidx Hdel). cbn [snd].
  rewrite snapshot_spec. cbn [fst srv Server.list].
  pose proof (inv_values _ Hinv _ _ Hidx) as Hin.
  destruct (remove_first X (Server.list (srv w))) as [l' |] eqn:Hrm;
    [| by apply remove_first_None in Hrm].
  apply remove_first_Some in Hrm as (l1 & l2 & Hl & Hnot1 & ->). simpl.
  unfold collision_free in Hfree. rewrite Hl in Hfree |- *.
  apply NoDup_fmap_1 in Hfree.
  apply NoDup_app in Hfree as (_ & Hdisj & Hnd2).
  apply NoDup_cons in Hnd2 as [Hnot2 _].
  assert (filter (λ a, a ≠ X) (l1 ++ X :: l2) = l1 ++ l2) as Hfilter.
  { rewrite filter_app, filter_cons_False by (intros Hn; by apply Hn).
    by rewrite !filter_absent. }
  rewrite Hfilter. split; [done |]. split.
  - intros [? | ?]%elem_of_app; done.
  - by rewrite elems_append.
Qed.

(** X9: the status of a /remove answer.  It is 405 exactly for a method
    other than POST, 400 exactly for a POST whose body does not decode,
    and 200 exactly for a POST whose body decodes; the method is looked
    at before the body, and a request answered with anything but 200
    leaves the cache, the account and the lock untouched. *)
Theorem handleRemove_status (r : Request) (w : World Remote) :
  let resp := fst (handleRemove r w) in
  (StatusCode resp = 405 ↔ Method r ≠ "POST")
  ∧ (StatusCode resp = 400 ↔ Method r = "POST" ∧ ∃ e, json_Decode (Body r) = Err e)
  ∧ (StatusCode resp = 200 ↔ Method r = "POST" ∧ ∃ req, json_Decode (Body r) = Ok req)
  ∧ (StatusCode resp ≠ 200 → snd (handleRemove r w) = w).
Proof.
  unfold handleRemove.
  destruct (decide (Method r = "POST")) as [Hpost | Hother].
  - destruct (json_Decode (Body r)) as [req | e]; unfold bind, ret.
    + destruct (remove_all _ _ _) as [results w1]. simpl.
      split; [split; [done | intros Hn; by destruct Hn] |].
      split; [split; [done | by intros (_ & e & He)] |].
      split; [split; [intros _; split; [done | by exists req] | done] |].
      intros Hn. by destruct Hn.
    + simpl.
      split; [split; [done | intros Hn; by destruct Hn] |].
      split; [split; [intros _; split; [done | by exists e] | done] |].
      split; [split; [done | by intros (_ & req & Hreq)] |].
      done.
  - simpl.
    split; [split; done |].
    split; [split; [done | by intros [Hp _]] |].
    split; [split; [done | by intros [Hp _]] |].
    done.
Qed.

(** *** handleUpdate and NewServer *)

(** X10: the three outcomes of /update.  A returning [handleUpdate]
    answers 200 exactly when the refresh succeeded, and its answer is then
    the very answer [/list] gives on the cache just installed; it answers
    500 with the error text and a newline when the refresh failed, and 405
    for a method other than POST, without calling the service; whenever
    the answer is not 200 the cache is as it was. *)
Theorem handleUpdate_outcomes fuel (r : Request) (w w' : World Remote)
    (resp : Response) :
  handleUpdate fuel r w = Some (resp, w') →
  (StatusCode resp = 200
   ∧ Method r = "POST"
   ∧ (∃ w1, refresh fuel w = Some (None, w1) ∧ srv w' = srv w1 ∧ remote w' = remote w1)
   ∧ ∀ r', fst (handleList r' w') = resp)
  ∨ (StatusCode resp = 500
     ∧ Method r = "POST"
     ∧ (∃ err, refresh fuel w = Some (Some err, w')
               ∧ ResponseBody resp = err +:+ String newline EmptyString)
     ∧ srv w' = srv w)
  ∨ (StatusCode resp = 405 ∧ Method r ≠ "POST" ∧ w' = w).
Proof.
  intros Hu.
  apply handleUpdate_cases in Hu
    as [(Hm & -> & ->) | [(Hm & err & Hr & ->) | (Hm & w1 & Hr & Hl)]].
  - right. right. done.
  - right. left. split; [done |]. split; [done |].
    split; [by exists err |]. by eapply refresh_failed_keeps.
  - left. pose proof (handleList_world r w1) as Hw. rewrite Hl in Hw. simpl in Hw.
    unfold handleList, bind, ret in Hl. rewrite snapshot_spec in Hl. simpl in Hl.
    injection Hl as <- _. subst w'. simpl.
    split; [done |]. split; [done |]. split; [by exists w1 |].
    intros r'. reflexivity.
Qed.

(** *** Invariants of the cache across requests *)

Lemma sublist_sorted (R : relation string) (l1 l2 : list string) :
  l1 `sublist_of` l2 → StronglySorted R l2 → StronglySorted R l1.
Proof.
  induction 1 as [| x l1 l2 Hsub IH | x l1 l2 Hsub IH]; intros Hs.
  - constructor.
  - apply StronglySorted_cons in Hs as [Hall Hs].
    constructor; [by apply IH |].
    rewrite Forall_forall in Hall |- *.
    intros y Hy. apply Hall. by eapply elem_of_sublist.
  - apply StronglySorted_cons in Hs as [_ Hs]. by apply IH.
Qed.

Lemma remove_keeps_filed (input : string) (w : World Remote) :
  (∀ k v, Server.index (srv w) !! k = Some v →
          v ∈ Server.list (srv w) ∧ ToLower v = k) →
  ∀ k v, Server.index (srv (snd (remove input w))) !! k = Some v →
         v ∈ Server.list (srv (snd (remove input w))) ∧ ToLower v = k.
Proof.
  intros Hfiled.
  destruct (Server.index (srv w) !! ToLower input) as [X |] eqn:Hidx.
  - destruct (DeleteSuppressedDestination (remote w) (DI.mk (Some X)))
      as [[e |] rm'] eqn:Hdel.
    + by rewrite (remove_error input w X e rm' Hidx Hdel).
    + rewrite (remove_removed input w X rm' Hidx Hdel). cbn [snd srv Server.index Server.list].
      intros k v Hkv. apply lookup_delete_Some in Hkv as [Hne Hkv].
      destruct (Hfiled k v Hkv) as [Hin Hlow]. split; [| done].
      destruct (Hfiled _ _ Hidx) as [_ HlowX].
      assert (v ≠ X) as HvX by (intros ->; apply Hne; by rewrite <- HlowX, <- Hlow).
      destruct (remove_first X (Server.list (srv w))) as [l' |] eqn:Hrm; simpl; [| done].
      apply remove_first_Some in Hrm as (l1 & l2 & Hl & _ & ->).
      rewrite Hl in Hin. apply elem_of_app.
      apply elem_of_app in Hin as [Hin | Hin]; [by left |].
      apply elem_of_cons in Hin as [Hin | Hin]; [done | by right].
  - by rewrite (remove_not_found input w Hidx).
Qed.

Lemma remove_each_keeps_filed (inputs : list string) : ∀ w : World Remote,
  (∀ k v, Server.index (srv w) !! k = Some v →
          v ∈ Server.list (srv w) ∧ ToLower v = k) →
  ∀ k v, Server.index (srv (snd (remove_each inputs w))) !! k = Some v →
         v ∈ Server.list (srv (snd (remove_each inputs w))) ∧ ToLower v = k.
Proof.
  induction inputs as [| input rest IH]; intros w Hfiled; [done |].
  cbn [remove_each].
  pose proof (remove_keeps_filed input w Hfiled) as H1.
  destruct (remove input w) as [r w1]. cbn [snd] in H1.
  specialize (IH w1 H1).
  by destruct (remove_each rest w1) as [rs w2].
Qed.

Lemma refreshed_cache fuel (w w' : World Remote) r :
  refresh fuel w = Some (r, w') →
  srv w' = srv w
  ∨ ∃ fetched, srv w' = Server.mk (sort_Slice fetched less)
                                  (build_index (sort_Slice fetched less)).
Proof.
  destruct r as [err |]; intros Hr.
  - left. by eapply refresh_failed_keeps.
  - right. by eapply refresh_installs.
Qed.

(** X12: what holds of the cache at every moment between requests.  In
    every world reached from [NewServer] by any sequence of /list, /update
    and /remove requests, [s.list] is ascending by lowercased form, and
    every entry of [s.index] has a lowercase key and a value that is an
    element of [s.list] with that key as its lowercased form, whether or
    not the service ever returned case variants of one address. *)
Theorem reachable_cache_sound (w : World Remote) :
  reachable w →
  StronglySorted fold_le (Server.list (srv w))
  ∧ ∀ k v, Server.index (srv w) !! k = Some v →
           v ∈ Server.list (srv w) ∧ ToLower v = k ∧ ToLower k = k.
Proof using sort_Slice_sorted ToLower_idem.
  assert (∀ s : Server.t,
            (∀ k v, Server.index s !! k = Some v → v ∈ Server.list s ∧ ToLower v = k) →
            ∀ k v, Server.index s !! k = Some v →
                   v ∈ Server.list s ∧ ToLower v = k ∧ ToLower k = k) as Hkeys.
  { intros s Hs k v Hkv. destruct (Hs k v Hkv) as [Hin Hlow].
    split; [done |]. split; [done |]. rewrite <- Hlow. apply ToLower_idem. }
  assert (∀ fetched,
            StronglySorted fold_le (sort_Slice fetched less)
            ∧ ∀ k v, build_index (sort_Slice fetched less) !! k = Some v →
                     v ∈ sort_Slice fetched less ∧ ToLower v = k) as Hinstalled.
  { intros fetched. split; [apply sort_Slice_fold_le |].
    intros k v Hkv. by apply build_index_lookup. }
  intros Hreach.
  enough (StronglySorted fold_le (Server.list (srv w))
          ∧ ∀ k v, Server.index (srv w) !! k = Some v →
                   v ∈ Server.list (srv w) ∧ ToLower v = k) as [Hs Hf].
  { split; [done |]. by apply Hkeys. }
  induction Hreach as [loaded fuel w logs Hnew | r w _ IH
                      | fuel r w resp w' _ IH Hu | r w _ IH].
  - unfold NewServer in Hnew. destruct loaded as [rm | err]; [| done].
    destruct (refresh fuel (mkWorld emptyServer rm [])) as [[e w0] |] eqn:Hr; [| done].
    assert (w0 = w) as -> by (by destruct e; injection Hnew).
    apply refreshed_cache in Hr as [Hs | [fetched Hs]]; rewrite Hs; simpl.
    + split; [constructor |]. intros k v Hkv. by rewrite lookup_empty in Hkv.
    + apply Hinstalled.
  - by rewrite handleList_world.
  - apply handleUpdate_cases in Hu
      as [(_ & _ & ->) | [(_ & err & Hr & _) | (_ & w1 & Hr & Hl)]].
    + done.
    + apply refresh_failed_keeps in Hr. by rewrite Hr.
    + apply refresh_installs in Hr as [fetched Hs].
      apply (f_equal snd) in Hl. cbn [snd] in Hl. subst w'.
      rewrite handleList_world. cbn [srv]. rewrite Hs. apply Hinstalled.
  - destruct IH as [Hs Hf]. split.
    + eapply sublist_sorted; [| exact Hs].
      by destruct (handleRemove_run r w) as (evs & _ & _ & _ & _ & _ & Hsub).
    + destruct (handleRemove_world r w) as [-> | [inputs ->]]; [done |].
      by apply remove_each_keeps_filed.
Qed.

(** X13: an address listed twice.  When [X] stands more than once in
    [s.list] (the service returned it twice), a successful removal takes
    out only its first occurrence and deletes the one index key: [X] is
    still listed afterwards, but the same input is then answered "not
    found", so the remaining occurrence cannot be removed until the next
    refresh. *)
Theorem remove_leaves_duplicate (input : string) (w : World Remote) X rm'
    (l1 l2 : list string) :
  Server.index (srv w) !! ToLower input = Some X →
  DeleteSuppressedDestination (remote w) (DI.mk (Some X)) = (None, rm') →
  Server.list (srv w) = l1 ++ X :: l2 →
  X ∉ l1 →
  X ∈ l2 →
  let w' := snd (remove input w) in
  Server.list (srv w') = l1 ++ l2
  ∧ X ∈ Server.list (srv w')
  ∧ Server.index (srv w') !! ToLower input = None
  ∧ fst (remove input w') = "not found: " +:+ input
  ∧ srv (snd (remove input w')) = srv w'.
Proof.
  intros Hidx Hdel Hl Hnot Hin w'. subst w'.
  rewrite (remove_removed input w X rm' Hidx Hdel). cbn [snd].
  assert (remove_first X (Server.list (srv w)) = Some (l1 ++ l2)) as Hrm.
  { apply remove_first_Some. by exists l1, l2. }
  rewrite Hrm. cbn [srv Server.list Server.index default from_option].
  split; [done |]. split; [apply elem_of_app; by right |].
  split; [apply lookup_delete_eq |].
  rewrite remove_not_found; [done |].
  cbn [srv Server.index]. apply lookup_delete_eq.
Qed.

Lemma remove_keeps_inv (input : string) (w : World Remote) :
  cache_inv (srv w) → collision_free (srv w) →
  cache_inv (srv (snd (remove input w)))
  ∧ collision_free (srv (snd (remove input w))).
Proof.
  intros Hinv Hcf.
  destruct (Server.index (srv w) !! ToLower input) as [X |] eqn:Hidx.
  - destruct (DeleteSuppressedDestination (remote w) (DI.mk (Some X)))
      as [[e |] rm'] eqn:Hdel.
    + by rewrite (remove_error input w X e rm' Hidx Hdel).
    + rewrite (remove_removed input w X rm' Hidx Hdel). cbn [snd srv].
      pose proof (inv_values _ Hinv _ _ Hidx) as Hin.
      pose proof (inv_keyed _ Hinv _ _ Hidx) as Hkey.
      destruct (remove_first X (Server.list (srv w))) as [l' |] eqn:Hrm;
        [| by apply remove_first_None in Hrm].
      apply remove_first_Some in Hrm as (l1 & l2 & Hl & _ & ->).
      unfold collision_free in *. destruct (srv w) as [l idx].
      simpl in *. subst l. rewrite <- Hkey.
      by apply pruned_cache_inv.
  - by rewrite (remove_not_found input w Hidx).
Qed.

Lemma remove_each_keeps_inv (inputs : list string) : ∀ w : World Remote,
  cache_inv (srv w) → collision_free (srv w) →
  cache_inv (srv (snd (remove_each inputs w)))
  ∧ collision_free (srv (snd (remove_each inputs w))).
Proof.
  induction inputs as [| input rest IH]; intros w Hinv Hcf; [done |].
  cbn [remove_each].
  destruct (remove_keeps_inv input w Hinv Hcf) as [Hinv1 Hcf1].
  destruct (remove input w) as [r w1]. cbn [snd] in *.
  specialize (IH w1 Hinv1 Hcf1).
  by destruct (remove_each rest w1) as [rs w2].
Qed.

(** X14: a /remove request served on its own keeps the invariant of the
    data model.  When no other request writes the cache while it runs
    (its turns follow one another with nothing in between), then whatever
    the request (any method, any body, any number of lines, any mix of
    removed, failed and unknown addresses), a cache that satisfies the
    invariant and has no two addresses with the same lowercased form still
    does so when [handleRemove] returns. *)
Theorem handleRemove_keeps_invariant (r : Request) (w : World Remote) :
  cache_inv (srv w) →
  collision_free (srv w) →
  cache_inv (srv (snd (handleRemove r w)))
  ∧ collision_free (srv (snd (handleRemove r w))).
Proof.
  intros Hinv Hcf.
  destruct (handleRemove_world r w) as [-> | [inputs ->]]; [done |].
  by apply remove_each_keeps_inv.
Qed.

(** *** The invariant and the unlocked window of a removal *)

Lemma remove_resolve_spec (input : string) (w : World Remote) :
  remove_resolve input w
  = (Server.index (srv w) !! ToLower input,
     mkWorld (srv w) (remote w) (trace w ++ [EvRLock; EvRUnlock])).
Proof.
  unfold remove_resolve, bind, emit, get_index, ret. simpl.
  by rewrite <- app_assoc.
Qed.

Lemma remove_commit_spec (key orig : string) (w : World Remote) :
  remove_commit key orig w
  = (tt, mkWorld (Server.mk (default (Server.list (srv w))
                                     (remove_first orig (Server.list (srv w))))
                            (delete key (Server.index (srv w))))
                 (remote w)
                 (trace w ++ [EvLock]
                    ++ (EvWrite FIndex ::
                        if remove_first orig (Server.list (srv w)) is Some _
                        then [EvWrite FList] else [])
                    ++ [EvUnlock])).
Proof.
  unfold remove_commit, bind, emit, get_index, get_list, set_index, set_list, ret.
  simpl.
  destruct (remove_first orig (Server.list (srv w))) as [l' |]; simpl;
    destruct (srv w) as [l idx]; simpl; by rewrite <- !app_assoc.
Qed.

(** One turn of the loop is its lookup, the remote delete and its update,
    in that order. *)
Lemma remove_phases (input : string) (w : World Remote) :
  remove input w
  = let '(found, w1) := remove_resolve input w in
    match found with
    | None => ("not found: " +:+ input, w1)
    | Some orig =>
        let '(err, w2) := client_Delete (DI.mk (Some orig)) w1 in
        match err with
        | Some e => ("error: " +:+ input +:+ " (" +:+ e +:+ ")", w2)
        | None => ("removed: " +:+ orig,
                   snd (remove_commit (ToLower input) orig w2))
        end
    end.
Proof.
  rewrite remove_resolve_spec.
  destruct (Server.index (srv w) !! ToLower input) as [orig |] eqn:Hidx.
  - unfold client_Delete. cbn [remote srv trace].
    destruct (DeleteSuppressedDestination (remote w) (DI.mk (Some orig)))
      as [[e |] rm'] eqn:Hdel.
    + rewrite (remove_error input w orig e rm' Hidx Hdel).
      by rewrite <- app_assoc.
    + rewrite (remove_removed input w orig rm' Hidx Hdel), remove_commit_spec.
      cbn [snd srv remote trace]. by rewrite <- !app_assoc.
  - by rewrite (remove_not_found input w Hidx).
Qed.

Lemma commit_keeps_inv (key orig : string) (w : World Remote) :
  cache_inv (srv w) → collision_free (srv w) →
  ToLower orig = key →
  Server.index (srv w) !! key = Some orig ∨ Server.index (srv w) !! key = None →
  cache_inv (srv (snd (remove_commit key orig w)))
  ∧ collision_free (srv (snd (remove_commit key orig w))).
Proof.
  intros Hinv Hcf Hkey Hcase. rewrite remove_commit_spec. cbn [snd srv].
  destruct Hcase as [Hidx | Hidx].
  - pose proof (inv_values _ Hinv _ _ Hidx) as Hin.
    destruct (remove_first orig (Server.list (srv w))) as [l' |] eqn:Hrm;
      [| by apply remove_first_None in Hrm].
    apply remove_first_Some in Hrm as (l1 & l2 & Hl & _ & ->).
    unfold collision_free in *. destruct (srv w) as [l idx].
    simpl in *. subst l. rewrite <- Hkey.
    by apply pruned_cache_inv.
  - assert (orig ∉ Server.list (srv w)) as Hnot.
    { intros Hin. apply (inv_entries _ Hinv) in Hin.
      rewrite Hkey, Hidx in Hin. discriminate Hin. }
    apply remove_first_None in Hnot. rewrite Hnot, delete_id by done. simpl.
    by destruct (srv w).
Qed.

(** C6, as the code has it: the invariant of the data model (keys of
    [s.index] are their own lowercased form, [s.index] maps the lowercased
    form of every element of [s.list] to that element, every value of
    [s.index] is an element of [s.list] filed under its own lowercased
    form) holds of the empty cache; a successful refresh that leaves no
    two addresses sharing a lowercased form establishes it; the lookup of
    a removal does not touch the cache; and the update of a removal keeps
    it, and keeps the cache free of collisions, whenever it finds the key
    still mapped to the address the lookup resolved, or gone.  That is the
    case for every removal between whose lookup and update no other
    request writes the cache, which therefore keeps the invariant as a
    whole. *)
Theorem cache_invariant_phased :
  (cache_inv emptyServer ∧ collision_free emptyServer)
  ∧ (∀ fuel (w w' : World Remote),
       refresh fuel w = Some (None, w') →
       collision_free (srv w') →
       cache_inv (srv w'))
  ∧ (∀ input (w : World Remote), srv (snd (remove_resolve input w)) = srv w)
  ∧ (∀ key orig (w : World Remote),
       cache_inv (srv w) →
       collision_free (srv w) →
       ToLower orig = key →
       Server.index (srv w) !! key = Some orig ∨ Server.index (srv w) !! key = None →
       cache_inv (srv (snd (remove_commit key orig w)))
       ∧ collision_free (srv (snd (remove_commit key orig w))))
  ∧ (∀ input (w : World Remote),
       cache_inv (srv w) →
       collision_free (srv w) →
       cache_inv (srv (snd (remove input w)))
       ∧ collision_free (srv (snd (remove input w)))).
Proof using ToLower_idem.
  split; [| split; [| split; [| split]]].
  - split; [| constructor].
    split; simpl.
    + intros k [v Hv]. by rewrite lookup_empty in Hv.
    + intros a Hin. by apply elem_of_nil in Hin.
    + intros k v Hv. by rewrite lookup_empty in Hv.
    + intros k v Hv. by rewrite lookup_empty in Hv.
  - intros fuel w w' Hr Hcf. apply refresh_installs in Hr as [fetched Hs].
    unfold collision_free in Hcf. rewrite Hs in *. by apply built_cache_inv.
  - intros input w. by rewrite remove_resolve_spec.
  - intros key orig w. apply commit_keeps_inv.
  - intros input w. apply remove_keeps_inv.
Qed.

(** X11: only a configuration that cannot be loaded stops the server.
    Without a configuration [NewServer] returns the error.  With one it
    returns a server whichever way the initial [refresh] ends: when a page
    request fails, the failure is logged and the server has the empty
    cache, for which [/list] answers [null]; when the listing runs to its
    end, the server has the sorted addresses installed.  Once configured
    it never returns an error. *)
Theorem NewServer_outcomes :
  (∀ err fuel, NewServer (Err err) fuel = Some (Err err, []))
  ∧ (∀ rm outs rm1 tok1 err rm2 fuel,
       follows rm None outs rm1 tok1 →
       ListSuppressedDestinations rm1 (LI.mk tok1 (Some 1000)) = (Err err, rm2) →
       (length outs < fuel)%nat →
       ∃ w, NewServer (Ok rm) fuel
            = Some (Ok w, ["initial refresh failed: " +:+ err])
         ∧ srv w = emptyServer
         ∧ remote w = rm2
         ∧ ∀ r, ResponseBody (fst (handleList r w))
                = "null" +:+ String newline EmptyString)
  ∧ (∀ rm outs rm1 tok1 last rm2 fuel,
       follows rm None outs rm1 tok1 →
       ListSuppressedDestinations rm1 (LI.mk tok1 (Some 1000)) = (Ok last, rm2) →
       LO.NextToken last = None →
       (length outs < fuel)%nat →
       ∃ w, NewServer (Ok rm) fuel = Some (Ok w, [])
         ∧ Server.list (srv w)
           = sort_Slice (concat (addresses <$> (outs ++ [last]))) less
         ∧ Server.index (srv w) = build_index (Server.list (srv w))
         ∧ remote w = rm2)
  ∧ (∀ rm fuel res logs,
       NewServer (Ok rm) fuel = Some (res, logs) → ∃ w, res = Ok w).
Proof.
  split; [done |]. split; [| split].
  - intros rm outs rm1 tok1 err rm2 fuel Hf Hlast Hfuel.
    pose proof (fetch_follows _ _ _ _ _ Hf fuel [] emptyServer [] (Err err) rm2
                  Hlast I Hfuel) as Hfetch.
    unfold NewServer, refresh. rewrite Hfetch. cbn [outcome].
    eexists. split; [reflexivity |]. by repeat split.
  - intros rm outs rm1 tok1 last rm2 fuel Hf Hlast Hnone Hfuel.
    pose proof (fetch_follows _ _ _ _ _ Hf fuel [] emptyServer [] (Ok last) rm2
                  Hlast Hnone Hfuel) as Hfetch.
    unfold NewServer, refresh. rewrite Hfetch. cbn [outcome].
    rewrite install_spec. eexists. split; [reflexivity |]. by repeat split.
  - intros rm fuel res logs. unfold NewServer.
    destruct (refresh fuel (mkWorld emptyServer rm [])) as [[[err |] w] |];
      [| | done]; intros [= <- _]; by exists w.
Qed.

End Handlers.

(** ** The library functions of [Fixture] meet the contracts *)

Lemma lower_byte_idem (c : ascii) :
  Fixture.lower_byte (Fixture.lower_byte c) = Fixture.lower_byte c.
Proof. destruct c as [[] [] [] [] [] [] [] []]; reflexivity. Qed.

Lemma Fixture_ToLower_idem (s : string) :
  Fixture.ToLower (Fixture.ToLower s) = Fixture.ToLower s.
Proof.
  induction s as [| c s IH]; simpl; [done |].
  by rewrite lower_byte_idem, IH.
Qed.

Lemma sift_perm lt (x : string) (sorted : list string) :
  Fixture.sift lt x sorted ≡ₚ x :: sorted.
Proof.
  induction sorted as [| p rest IH]; simpl; [done |].
  destruct (lt x p); [| done].
  rewrite IH. apply Permutation_swap.
Qed.

Lemma insertion_loop_perm lt (todo : list string) : ∀ sorted,
  Fixture.insertion_loop lt sorted todo ≡ₚ sorted ++ todo.
Proof.
  induction todo as [| x todo IH]; intros sorted; simpl.
  - by rewrite reverse_Permutation, app_nil_r.
  - rewrite IH, sift_perm. simpl. apply Permutation_middle.
Qed.

Lemma insertionSort_perm (l : list string) lt : Fixture.insertionSort l lt ≡ₚ l.
Proof. unfold Fixture.insertionSort. by rewrite insertion_loop_perm. Qed.

Lemma sift_sorted lt (x : string) (sorted : list string) :
  StrictWeakOrder lt →
  StronglySorted (λ a b, lt a b = false) sorted →
  StronglySorted (λ a b, lt a b = false) (Fixture.sift lt x sorted).
Proof.
  intros Hswo. induction 1 as [| p rest Hrest IH Hp]; simpl.
  - repeat constructor.
  - destruct (lt x p) eqn:Hxp.
    + constructor; [done |].
      rewrite sift_perm. constructor; [| done].
      destruct (lt p x) eqn:Hpx; [| done].
      pose proof (swo_trans _ Hswo _ _ _ Hxp Hpx) as Hxx.
      by rewrite (swo_irrefl _ Hswo) in Hxx.
    + constructor; [by constructor |].
      constructor; [done |].
      eapply Forall_impl; [exact Hp |].
      intros b Hpb. by eapply (swo_incomp _ Hswo).
Qed.

Lemma reverse_sorted (R : relation string) (l : list string) :
  StronglySorted R l → StronglySorted (flip R) (reverse l).
Proof.
  induction 1 as [| x l Hl IH Hx]; [constructor |].
  rewrite reverse_cons. apply StronglySorted_app. split; [| split].
  - intros a b Ha ->%list_elem_of_singleton.
    rewrite elem_of_reverse in Ha. unfold flip.
    rewrite Forall_forall in Hx. by apply Hx.
  - done.
  - repeat constructor.
Qed.

Lemma insertion_loop_sorted lt (todo : list string) : ∀ sorted,
  StrictWeakOrder lt →
  StronglySorted (λ a b, lt a b = false) sorted →
  StronglySorted (λ a b, lt b a = false) (Fixture.insertion_loop lt sorted todo).
Proof.
  induction todo as [| x todo IH]; intros sorted Hswo Hs; simpl.
  - by apply reverse_sorted in Hs.
  - apply IH; [done |]. by apply sift_sorted.
Qed.

Lemma insertionSort_sorted (l : list string) lt :
  StrictWeakOrder lt →
  StronglySorted (λ a b, lt b a = false) (Fixture.insertionSort l lt).
Proof. intros Hswo. apply insertion_loop_sorted; [done | constructor]. Qed.

Lemma swap_if_less_perm lt (data : list string) (i : nat) :
  Fixture.swap_if_less lt data i ≡ₚ data.
Proof.
  unfold Fixture.swap_if_less.
  destruct (data !! i) as [x |] eqn:Hi; [| done].
  destruct (data !! (i - 6)%nat) as [y |] eqn:Hj; [| done].
  destruct (lt x y); [| done].
  by apply Permutation_insert_swap.
Qed.

Lemma shell_pass_perm lt (data : list string) : Fixture.shell_pass lt data ≡ₚ data.
Proof.
  unfold Fixture.shell_pass.
  generalize (seq 6 (length data - 6)) as steps. intros steps. revert data.
  induction steps as [| i steps IH]; intros data; simpl; [done |].
  by rewrite IH, swap_if_less_perm.
Qed.

(** The older [sort.Slice] meets the same contracts. *)
Lemma quickSort_short_perm (l : list string) lt : Fixture.quickSort_short l lt ≡ₚ l.
Proof. unfold Fixture.quickSort_short. by rewrite insertionSort_perm, shell_pass_perm. Qed.

Lemma quickSort_short_sorted (l : list string) lt :
  StrictWeakOrder lt →
  StronglySorted (λ a b, lt b a = false) (Fixture.quickSort_short l lt).
Proof. intros Hswo. by apply insertionSort_sorted. Qed.

(** ** The statements at work on the scripted account *)

(** The scenario of the specification: pages [b@x.com, A@x.com], then
    [c@x.com], then an empty page without cursor. *)
Lemma refresh_paginates_witness :
  ∃ w', refresh Fixture.ToLower Fixture.insertionSort Fixture.Remote
          Fixture.ListSuppressedDestinations 3
          (Fixture.world emptyServer Fixture.account) = Some (None, w')
    ∧ Server.list (srv w') = ["A@x.com"; "b@x.com"; "c@x.com"]
    ∧ trace w' = [ EvListCall (LI.mk None (Some 1000));
                   EvListCall (LI.mk (Some "t1") (Some 1000));
                   EvListCall (LI.mk (Some "t2") (Some 1000));
                   EvLock; EvWrite FList; EvWrite FIndex; EvUnlock ].
Proof.
  destruct (refresh_paginates Fixture.ToLower Fixture.insertionSort Fixture.Remote
              Fixture.ListSuppressedDestinations
              (Fixture.world emptyServer Fixture.account)
              [Fixture.page ["b@x.com"; "A@x.com"] (Some "t1");
               Fixture.page ["c@x.com"] (Some "t2")]
              Fixture.account (Some "t2") (Fixture.page [] None) Fixture.account 3)
    as [_ (w' & Hr & Hl & _ & Htr)].
  - eapply follows_cons; [reflexivity | reflexivity |].
    eapply follows_cons; [reflexivity | reflexivity |].
    apply follows_nil.
  - reflexivity.
  - reflexivity.
  - simpl. lia.
  - exists w'. split; [exact Hr |]. split; [rewrite Hl | rewrite Htr]; reflexivity.
Defined.

(** The second page request fails; the cache filled earlier stays. *)
Lemma refresh_failure_keeps_cache_witness :
  ∃ w', refresh Fixture.ToLower Fixture.insertionSort Fixture.Remote
          Fixture.ListSuppressedDestinations 2
          (Fixture.world Fixture.cached Fixture.broken_account)
        = Some (Some "ThrottlingException", w')
    ∧ srv w' = Fixture.cached
    ∧ fst (snapshot Fixture.Remote w') = Some ["A@x.com"; "b@x.com"; "c@x.com"].
Proof.
  destruct (refresh_failure_keeps_cache Fixture.ToLower Fixture.insertionSort
              Fixture.json_quote Fixture.Remote Fixture.ListSuppressedDestinations
              (Fixture.world Fixture.cached Fixture.broken_account)
              [Fixture.page ["b@x.com"; "A@x.com"] (Some "t1")]
              Fixture.broken_account (Some "t1") "ThrottlingException"
              Fixture.broken_account 2)
    as (w' & Hr & Hs & _ & Hsnap & _).
  - eapply follows_cons; [reflexivity | reflexivity |]. apply follows_nil.
  - reflexivity.
  - simpl. lia.
  - exists w'. split; [exact Hr |]. split; [exact Hs |]. rewrite Hsnap. reflexivity.
Defined.

Lemma refresh_success_cache_witness :
  ∃ w', refresh Fixture.ToLower Fixture.insertionSort Fixture.Remote
          Fixture.ListSuppressedDestinations 3
          (Fixture.world emptyServer Fixture.account) = Some (None, w')
    ∧ Server.list (srv w') ≡ₚ ["b@x.com"; "A@x.com"; "c@x.com"]
    ∧ StronglySorted (fold_le Fixture.ToLower) (Server.list (srv w'))
    ∧ latest_wins Fixture.ToLower (Server.list (srv w')) (Server.index (srv w')).
Proof.
  destruct (refresh_success_cache Fixture.ToLower Fixture.insertionSort Fixture.Remote
              Fixture.ListSuppressedDestinations
              insertionSort_perm insertionSort_sorted
              (Fixture.world emptyServer Fixture.account)
              [Fixture.page ["b@x.com"; "A@x.com"] (Some "t1");
               Fixture.page ["c@x.com"] (Some "t2")]
              Fixture.account (Some "t2") (Fixture.page [] None) Fixture.account 3)
    as (w' & evs & Hr & Hperm & Hsorted & _ & _ & Hlatest & _).
  - eapply follows_cons; [reflexivity | reflexivity |].
    eapply follows_cons; [reflexivity | reflexivity |].
    apply follows_nil.
  - reflexivity.
  - reflexivity.
  - simpl. lia.
  - exists w'. split; [exact Hr |]. split; [exact Hperm |]. split; [exact Hsorted |].
    exact Hlatest.
Defined.

(** C2 as worded fails: with the [sort.Slice] of Go 1.18 and earlier, a
    page that lists B@x.com before b@x.com leaves the index entry of
    b@x.com pointing at B@x.com, the address fetched first, because the
    index is filled from the sorted slice and the sort has moved b@x.com
    in front of B@x.com. *)
Lemma refresh_index_not_latest_fetched :
  (∀ l lt, Fixture.quickSort_short l lt ≡ₚ l)
  ∧ (∀ l lt, StrictWeakOrder lt →
       StronglySorted (λ a b, lt b a = false) (Fixture.quickSort_short l lt))
  ∧ ∃ w', refresh Fixture.ToLower Fixture.quickSort_short Fixture.Remote
          Fixture.ListSuppressedDestinations 1
          (Fixture.world emptyServer Fixture.tied_account) = Some (None, w')
    ∧ fst <$> fetch Fixture.Remote Fixture.ListSuppressedDestinations 1 [] None
                (Fixture.world emptyServer Fixture.tied_account)
      = Some (Ok Fixture.tied)
    ∧ Server.list (srv w')
      = ["b@x.com"; "B@x.com"; "c@x.com"; "d@x.com"; "e@x.com"; "f@x.com"; "g@x.com"]
    ∧ Server.index (srv w') !! "b@x.com" = Some "B@x.com"
    ∧ ¬ latest_wins Fixture.ToLower Fixture.tied (Server.index (srv w')).
Proof.
  split; [exact quickSort_short_perm |]. split; [exact quickSort_short_sorted |].
  eexists. split; [vm_compute; reflexivity |].
  split; [reflexivity |].
  split; [reflexivity |]. split; [vm_compute; reflexivity |].
  intros Hlatest.
  specialize (Hlatest 6%nat "b@x.com" eq_refl).
  assert (∀ (j : nat) (b : string),
            Fixture.tied !! j = Some b →
            Fixture.ToLower b = Fixture.ToLower "b@x.com" → (j ≤ 6)%nat) as Hlast.
  { intros j b Hj _. apply lookup_lt_Some in Hj. simpl in Hj. lia. }
  specialize (Hlatest Hlast). vm_compute in Hlatest. discriminate Hlatest.
Qed.

(** [remove("a@x.com")] against a cache holding A@x.com. *)
Lemma remove_success_witness :
  ∃ w', remove Fixture.ToLower Fixture.Remote Fixture.DeleteSuppressedDestination
          "a@x.com" (Fixture.world Fixture.cached Fixture.account)
        = ("removed: A@x.com", w')
    ∧ Server.list (srv w') = ["b@x.com"; "c@x.com"]
    ∧ Server.index (srv w') !! "a@x.com" = None.
Proof.
  destruct (remove_success Fixture.ToLower Fixture.Remote
              Fixture.DeleteSuppressedDestination "a@x.com"
              (Fixture.world Fixture.cached Fixture.account) "A@x.com"
              (Fixture.mkRemote (Fixture.script Fixture.account) ["c@x.com"] ["A@x.com"]))
    as (w' & evs & Hr & Hidx & Hlist & _).
  - vm_compute. reflexivity.
  - vm_compute. reflexivity.
  - exists w'. split; [exact Hr |]. split.
    + apply (Hlist [] ["b@x.com"; "c@x.com"]); [reflexivity | apply not_elem_of_nil].
    + rewrite Hidx. apply lookup_delete_eq.
Defined.

(** An address that is not cached, and one whose deletion the account
    refuses. *)
Lemma remove_failure_witness :
  (fst (remove Fixture.ToLower Fixture.Remote Fixture.DeleteSuppressedDestination
          "notthere@x.com" (Fixture.world Fixture.cached Fixture.account))
   = "not found: notthere@x.com"
   ∧ srv (snd (remove Fixture.ToLower Fixture.Remote Fixture.DeleteSuppressedDestination
                 "notthere@x.com" (Fixture.world Fixture.cached Fixture.account)))
     = Fixture.cached)
  ∧ (fst (remove Fixture.ToLower Fixture.Remote Fixture.DeleteSuppressedDestination
            "C@x.com" (Fixture.world Fixture.cached Fixture.account))
     = "error: C@x.com (TooManyRequestsException)"
     ∧ srv (snd (remove Fixture.ToLower Fixture.Remote Fixture.DeleteSuppressedDestination
                   "C@x.com" (Fixture.world Fixture.cached Fixture.account)))
       = Fixture.cached).
Proof.
  split.
  - destruct (proj1 (remove_failure Fixture.ToLower Fixture.Remote
                       Fixture.DeleteSuppressedDestination "notthere@x.com"
                       (Fixture.world Fixture.cached Fixture.account)))
      as (Hr & Hs & _).
    + vm_compute. reflexivity.
    + split; [exact Hr | exact Hs].
  - destruct (proj2 (remove_failure Fixture.ToLower Fixture.Remote
                       Fixture.DeleteSuppressedDestination "C@x.com"
                       (Fixture.world Fixture.cached Fixture.account))
                "c@x.com" "TooManyRequestsException" Fixture.account)
      as (Hr & Hs & _).
    + vm_compute. reflexivity.
    + vm_compute. reflexivity.
    + split; [exact Hr | exact Hs].
Defined.

Lemma remove_twice_witness :
  fst (remove Fixture.ToLower Fixture.Remote Fixture.DeleteSuppressedDestination
         "a@x.com" (Fixture.world Fixture.cached Fixture.account))
  = "removed: A@x.com"
  ∧ fst (remove Fixture.ToLower Fixture.Remote Fixture.DeleteSuppressedDestination
           "a@x.com"
           (snd (remove Fixture.ToLower Fixture.Remote Fixture.DeleteSuppressedDestination
                   "a@x.com" (Fixture.world Fixture.cached Fixture.account))))
    = "not found: a@x.com".
Proof.
  destruct (remove_twice Fixture.ToLower Fixture.Remote
              Fixture.DeleteSuppressedDestination "a@x.com"
              (Fixture.world Fixture.cached Fixture.account) "A@x.com"
              (Fixture.mkRemote (Fixture.script Fixture.account) ["c@x.com"] ["A@x.com"]))
    as (H1 & H2 & _).
  - vm_compute. reflexivity.
  - vm_compute. reflexivity.
  - split; [exact H1 | exact H2].
Defined.

(** The /remove scenario of the specification. *)
Lemma handleRemove_results_witness :
  ResponseBody
    (fst (handleRemove Fixture.ToLower Fixture.TrimSpace Fixture.json_quote
            Fixture.json_Decode Fixture.Remote Fixture.DeleteSuppressedDestination
            (Fixture.post "a@x.com\nnotthere@x.com\n")
            (Fixture.world Fixture.cached Fixture.account)))
  = "{" +:+ Fixture.quoted "results" +:+ ":["
    +:+ Fixture.quoted "removed: A@x.com" +:+ ","
    +:+ Fixture.quoted "not found: notthere@x.com" +:+ "]}"
    +:+ String newline EmptyString.
Proof.
  destruct (handleRemove_results Fixture.ToLower Fixture.TrimSpace Fixture.json_quote
              Fixture.json_Decode Fixture.Remote Fixture.DeleteSuppressedDestination
              ("{" +:+ Fixture.quoted "emails" +:+ ":"
               +:+ Fixture.quoted "a@x.com\nnotthere@x.com\n" +:+ "}")
              (mkRemoveRequest (Fixture.lines ["a@x.com"; "notthere@x.com"]))
              (Fixture.world Fixture.cached Fixture.account))
    as (_ & _ & Hbody & _).
  - vm_compute. reflexivity.
  - unfold Fixture.post. rewrite Hbody. vm_compute. reflexivity.
Defined.

(** /list before anything is cached, and /remove with blank lines only. *)
Lemma empty_slices_encode_null_witness :
  ResponseBody
    (fst (handleList Fixture.json_quote Fixture.Remote (mkRequest "GET" EmptyString)
            (Fixture.world emptyServer Fixture.account)))
  = "null" +:+ String newline EmptyString
  ∧ ResponseBody
      (fst (handleRemove Fixture.ToLower Fixture.TrimSpace Fixture.json_quote
              Fixture.json_Decode Fixture.Remote Fixture.DeleteSuppressedDestination
              (Fixture.post "\n  \n")
              (Fixture.world Fixture.cached Fixture.account)))
    = "{" +:+ dquote +:+ "results" +:+ dquote +:+ ":null}"
      +:+ String newline EmptyString.
Proof.
  destruct (empty_slices_encode_null Fixture.ToLower Fixture.TrimSpace
              Fixture.json_quote Fixture.json_Decode Fixture.Remote
              Fixture.DeleteSuppressedDestination)
    as (Hlist & _ & Hremove).
  split.
  - apply Hlist. reflexivity.
  - apply (Hremove ("{" +:+ Fixture.quoted "emails" +:+ ":"
                    +:+ Fixture.quoted "\n  \n" +:+ "}")
             (mkRemoveRequest (Fixture.lines [EmptyString; "  "]))).
    + vm_compute. reflexivity.
    + vm_compute. repeat constructor.
Defined.

(** ** Further statements at work on the scripted account *)

Lemma Fixture_cached_free : collision_free Fixture.ToLower Fixture.cached.
Proof. apply (bool_decide_unpack _). vm_compute. exact I. Qed.

Lemma Fixture_cached_inv : cache_inv Fixture.ToLower Fixture.cached.
Proof.
  replace Fixture.cached
    with (Server.mk (Server.list Fixture.cached)
                    (build_index Fixture.ToLower (Server.list Fixture.cached)))
    by (vm_compute; reflexivity).
  apply built_cache_inv; [exact Fixture_ToLower_idem | exact Fixture_cached_free].
Qed.

Lemma Fixture_first_refresh :
  refresh Fixture.ToLower Fixture.insertionSort Fixture.Remote
    Fixture.ListSuppressedDestinations 3
    (Fixture.world emptyServer Fixture.account)
  = Some (None, Fixture.refreshed).
Proof. vm_compute. reflexivity. Qed.

(** The failed refresh traced back to the request that failed. *)
Lemma refresh_sound_witness :
  ∃ outs rm1 tok1,
    follows Fixture.Remote Fixture.ListSuppressedDestinations
      Fixture.broken_account None outs rm1 tok1
    ∧ fst (Fixture.ListSuppressedDestinations rm1 (LI.mk tok1 (Some 1000)))
      = Err "ThrottlingException".
Proof.
  assert (refresh Fixture.ToLower Fixture.insertionSort Fixture.Remote
            Fixture.ListSuppressedDestinations 2
            (Fixture.world Fixture.cached Fixture.broken_account)
          = Some (Some "ThrottlingException",
                  mkWorld Fixture.cached Fixture.broken_account
                    [ EvListCall (LI.mk None (Some 1000));
                      EvListCall (LI.mk (Some "t1") (Some 1000)) ])) as Hr.
  { vm_compute. reflexivity. }
  destruct (refresh_sound Fixture.ToLower Fixture.insertionSort Fixture.Remote
              Fixture.ListSuppressedDestinations 2 _ _ _ Hr)
    as (outs & rm1 & tok1 & res & Hf & Hlast & _ & Hm).
  destruct res as [last | e]; [destruct Hm |].
  destruct Hm as [-> _].
  exists outs, rm1, tok1. split; [exact Hf |]. rewrite Hlast. reflexivity.
Defined.

Lemma handlers_lock_discipline_witness :
  lock_run Free
    (trace (snd (handleRemove Fixture.ToLower Fixture.TrimSpace Fixture.json_quote
                   Fixture.json_Decode Fixture.Remote
                   Fixture.DeleteSuppressedDestination
                   (Fixture.post "a@x.com\nnotthere@x.com\nC@x.com")
                   Fixture.refreshed)))
  = Some Free.
Proof.
  apply (handlers_lock_discipline Fixture.ToLower Fixture.TrimSpace
           Fixture.insertionSort Fixture.json_quote Fixture.json_Decode
           Fixture.Remote Fixture.ListSuppressedDestinations
           Fixture.DeleteSuppressedDestination Fixture.refreshed).
  reflexivity.
Defined.

Lemma remote_calls_by_handler_witness :
  ∃ evs,
    trace (snd (handleRemove Fixture.ToLower Fixture.TrimSpace Fixture.json_quote
                  Fixture.json_Decode Fixture.Remote
                  Fixture.DeleteSuppressedDestination
                  (Fixture.post "a@x.com\nnotthere@x.com\nC@x.com")
                  Fixture.refreshed))
    = trace Fixture.refreshed ++ evs
    ∧ Forall (λ e, is_list_call e = false) evs.
Proof.
  apply (remote_calls_by_handler Fixture.ToLower Fixture.TrimSpace
           Fixture.insertionSort Fixture.json_quote Fixture.json_Decode
           Fixture.Remote Fixture.ListSuppressedDestinations
           Fixture.DeleteSuppressedDestination Fixture.refreshed).
Defined.

(** Two addresses the cache has never seen. *)
Lemma handleRemove_unknown_batch_witness :
  snd (handleRemove Fixture.ToLower Fixture.TrimSpace Fixture.json_quote
         Fixture.json_Decode Fixture.Remote Fixture.DeleteSuppressedDestination
         (Fixture.post "x@x.com\n y@x.com \n")
         (Fixture.world Fixture.cached Fixture.account))
  = mkWorld Fixture.cached Fixture.account [EvRLock; EvRUnlock; EvRLock; EvRUnlock].
Proof.
  unfold Fixture.post.
  rewrite (handleRemove_unknown_batch Fixture.ToLower Fixture.TrimSpace
             Fixture.json_quote Fixture.json_Decode Fixture.Remote
             Fixture.DeleteSuppressedDestination _
             (mkRemoveRequest (Fixture.lines ["x@x.com"; " y@x.com "]))).
  - vm_compute. reflexivity.
  - vm_compute. reflexivity.
  - vm_compute. repeat constructor.
Defined.

(** After the first refresh, A@x.com is removed under another spelling. *)
Lemma refreshed_entries_resolve_witness :
  fst (remove Fixture.ToLower Fixture.Remote Fixture.DeleteSuppressedDestination
         "a@X.COM" Fixture.refreshed)
  = "removed: A@x.com".
Proof.
  destruct (refreshed_entries_resolve Fixture.ToLower Fixture.insertionSort
              Fixture.Remote Fixture.ListSuppressedDestinations
              Fixture.DeleteSuppressedDestination 3
              (Fixture.world emptyServer Fixture.account) Fixture.refreshed
              "A@x.com" "a@X.COM")
    as (b & Hb & _ & _ & Hres).
  - exact Fixture_first_refresh.
  - apply list_elem_of_here.
  - reflexivity.
  - vm_compute in Hb. injection Hb as <-. rewrite Hres. reflexivity.
Defined.

Lemma remove_then_list_witness :
  elems (fst (snapshot Fixture.Remote
                (snd (remove Fixture.ToLower Fixture.Remote
                        Fixture.DeleteSuppressedDestination "B@X.com"
                        (Fixture.world Fixture.cached Fixture.account)))))
  = ["A@x.com"; "c@x.com"].
Proof.
  destruct (remove_then_list Fixture.ToLower Fixture.Remote
              Fixture.DeleteSuppressedDestination "B@X.com"
              (Fixture.world Fixture.cached Fixture.account) "b@x.com"
              (Fixture.mkRemote (Fixture.script Fixture.account) ["c@x.com"] ["b@x.com"])
              Fixture_cached_inv Fixture_cached_free)
    as (_ & _ & Hsnap).
  - vm_compute. reflexivity.
  - vm_compute. reflexivity.
  - rewrite Hsnap. vm_compute. reflexivity.
Defined.

(** A GET and a POST without a JSON body. *)
Lemma handleRemove_status_witness :
  StatusCode
    (fst (handleRemove Fixture.ToLower Fixture.TrimSpace Fixture.json_quote
            Fixture.json_Decode Fixture.Remote Fixture.DeleteSuppressedDestination
            (mkRequest "GET" EmptyString) Fixture.refreshed)) = 405
  ∧ StatusCode
      (fst (handleRemove Fixture.ToLower Fixture.TrimSpace Fixture.json_quote
              Fixture.json_Decode Fixture.Remote Fixture.DeleteSuppressedDestination
              (mkRequest "POST" "emails=a@x.com") Fixture.refreshed)) = 400.
Proof.
  split.
  - apply (handleRemove_status Fixture.ToLower Fixture.TrimSpace Fixture.json_quote
             Fixture.json_Decode Fixture.Remote Fixture.DeleteSuppressedDestination
             (mkRequest "GET" EmptyString) Fixture.refreshed).
    discriminate.
  - apply (handleRemove_status Fixture.ToLower Fixture.TrimSpace Fixture.json_quote
             Fixture.json_Decode Fixture.Remote Fixture.DeleteSuppressedDestination
             (mkRequest "POST" "emails=a@x.com") Fixture.refreshed).
    split; [reflexivity |]. exists "invalid character". reflexivity.
Defined.

(** POST /update against the freshly started server. *)
Lemma handleUpdate_outcomes_witness :
  ∃ resp w',
    handleUpdate Fixture.ToLower Fixture.insertionSort Fixture.json_quote
      Fixture.Remote Fixture.ListSuppressedDestinations 3
      (mkRequest "POST" EmptyString) (Fixture.world emptyServer Fixture.account)
    = Some (resp, w')
    ∧ StatusCode resp = 200
    ∧ srv w' = Fixture.cached
    ∧ fst (handleList Fixture.json_quote Fixture.Remote
             (mkRequest "GET" EmptyString) w') = resp.
Proof.
  destruct (handleUpdate Fixture.ToLower Fixture.insertionSort Fixture.json_quote
              Fixture.Remote Fixture.ListSuppressedDestinations 3
              (mkRequest "POST" EmptyString)
              (Fixture.world emptyServer Fixture.account))
    as [[resp w'] |] eqn:Hu; [| vm_compute in Hu; discriminate Hu].
  exists resp, w'. split; [reflexivity |].
  destruct (handleUpdate_outcomes Fixture.ToLower Fixture.insertionSort
              Fixture.json_quote Fixture.Remote Fixture.ListSuppressedDestinations
              3 _ _ _ _ Hu)
    as [(H200 & _ & (w1 & Hr & Hs & _) & Hl)
       | [(_ & _ & (err & Hr & _) & _) | (_ & Hm & _)]].
  - split; [exact H200 |]. split; [| apply Hl].
    rewrite Fixture_first_refresh in Hr. injection Hr as <-. exact Hs.
  - rewrite Fixture_first_refresh in Hr. discriminate Hr.
  - destruct Hm. reflexivity.
Defined.

(** The server started on [account], then asked to remove two addresses. *)
Lemma reachable_cache_sound_witness :
  StronglySorted (fold_le Fixture.ToLower)
    (Server.list
       (srv (snd (handleRemove Fixture.ToLower Fixture.TrimSpace Fixture.json_quote
                    Fixture.json_Decode Fixture.Remote
                    Fixture.DeleteSuppressedDestination
                    (Fixture.post "a@x.com\nC@x.com") Fixture.refreshed)))).
Proof.
  apply (reachable_cache_sound Fixture.ToLower Fixture.TrimSpace
           Fixture.insertionSort Fixture.json_quote Fixture.json_Decode
           Fixture.Remote Fixture.ListSuppressedDestinations
           Fixture.DeleteSuppressedDestination
           insertionSort_sorted Fixture_ToLower_idem).
  apply reach_handleRemove.
  apply (reach_NewServer Fixture.ToLower Fixture.TrimSpace Fixture.insertionSort
           Fixture.json_quote Fixture.json_Decode Fixture.Remote
           Fixture.ListSuppressedDestinations Fixture.DeleteSuppressedDestination
           (Ok Fixture.account) 3 Fixture.refreshed []).
  vm_compute. reflexivity.
Defined.

Lemma remove_leaves_duplicate_witness :
  Server.list
    (srv (snd (remove Fixture.ToLower Fixture.Remote
                 Fixture.DeleteSuppressedDestination "a@x.com"
                 (Fixture.world Fixture.doubled Fixture.account))))
  = ["A@x.com"; "b@x.com"]
  ∧ fst (remove Fixture.ToLower Fixture.Remote Fixture.DeleteSuppressedDestination
           "a@x.com"
           (snd (remove Fixture.ToLower Fixture.Remote
                   Fixture.DeleteSuppressedDestination "a@x.com"
                   (Fixture.world Fixture.doubled Fixture.account))))
    = "not found: a@x.com".
Proof.
  destruct (remove_leaves_duplicate Fixture.ToLower Fixture.Remote
              Fixture.DeleteSuppressedDestination "a@x.com"
              (Fixture.world Fixture.doubled Fixture.account) "A@x.com"
              (Fixture.mkRemote (Fixture.script Fixture.account) ["c@x.com"] ["A@x.com"])
              [] ["A@x.com"; "b@x.com"])
    as (Hl & _ & _ & Hnf & _).
  - vm_compute. reflexivity.
  - vm_compute. reflexivity.
  - reflexivity.
  - apply not_elem_of_nil.
  - apply list_elem_of_here.
  - split; [exact Hl | exact Hnf].
Defined.

Lemma handleRemove_keeps_invariant_witness :
  cache_inv Fixture.ToLower
    (srv (snd (handleRemove Fixture.ToLower Fixture.TrimSpace Fixture.json_quote
                 Fixture.json_Decode Fixture.Remote
                 Fixture.DeleteSuppressedDestination
                 (Fixture.post "a@x.com\nnotthere@x.com\nC@x.com")
                 (Fixture.world Fixture.cached Fixture.account)))).
Proof.
  apply (handleRemove_keeps_invariant Fixture.ToLower Fixture.TrimSpace
           Fixture.json_quote Fixture.json_Decode Fixture.Remote
           Fixture.DeleteSuppressedDestination
           (Fixture.post "a@x.com\nnotthere@x.com\nC@x.com")
           (Fixture.world Fixture.cached Fixture.account)
           Fixture_cached_inv Fixture_cached_free).
Defined.

(** ** What the contract of [sort.Slice] fixes, and what it leaves open *)

Lemma NoDup_fmap_agree (f : string → string) (l : list string) (a b : string) :
  NoDup (f <$> l) → a ∈ l → b ∈ l → f a = f b → a = b.
Proof.
  intros Hnd [i Hi]%list_elem_of_lookup [j Hj]%list_elem_of_lookup Hab.
  assert (i = j) as ->; [| congruence].
  apply (NoDup_lookup (f <$> l) i j (f a)); [done | |].
  - by rewrite list_lookup_fmap, Hi.
  - by rewrite list_lookup_fmap, Hj, Hab.
Qed.

Lemma fmap_agree_eq (f : string → string) (l1 : list string) : ∀ l2,
  f <$> l1 = f <$> l2 →
  (∀ a b, a ∈ l1 → b ∈ l2 → f a = f b → a = b) →
  l1 = l2.
Proof.
  induction l1 as [| a l1 IH]; intros [| b l2] Heq Hinj; try done.
  injection Heq as Hab Heq.
  rewrite (Hinj a b) by (done || apply list_elem_of_here). f_equal.
  apply IH; [done |]. intros x y Hx Hy. apply Hinj; by apply list_elem_of_further.
Qed.

(** X15: the order of the entries is fixed by the contract of
    [sort.Slice] except among addresses with equal lowercased forms.
    Whatever two sorts that meet the contract are put in its place, the
    step of [refresh] that follows the fetch installs lists with the same
    sequence of lowercased forms, and the very same list and index when
    no two fetched addresses share a lowercased form. *)
Theorem entries_fixed_up_to_ties (ToLower : string → string)
    (sort1 sort2 : list string → (string → string → bool) → list string)
    (Remote : Type) (fetched : list string) (w1 w2 : World Remote) :
  (∀ l lt, sort1 l lt ≡ₚ l) →
  (∀ l lt, StrictWeakOrder lt →
           StronglySorted (λ a b, lt b a = false) (sort1 l lt)) →
  (∀ l lt, sort2 l lt ≡ₚ l) →
  (∀ l lt, StrictWeakOrder lt →
           StronglySorted (λ a b, lt b a = false) (sort2 l lt)) →
  let v1 := snd (install ToLower sort1 Remote fetched w1) in
  let v2 := snd (install ToLower sort2 Remote fetched w2) in
  ToLower <$> Server.list (srv v1) = ToLower <$> Server.list (srv v2)
  ∧ (NoDup (ToLower <$> fetched) → srv v1 = srv v2).
Proof.
  intros Hp1 Hs1 Hp2 Hs2 v1 v2. subst v1 v2. rewrite !install_spec.
  cbn [snd srv Server.list].
  assert (ToLower <$> sort1 fetched (less ToLower)
          = ToLower <$> sort2 fetched (less ToLower)) as Hmap.
  { apply (StronglySorted_unique String.le).
    - apply (StronglySorted_fmap ToLower (fold_le ToLower)); [done |].
      by apply sort_Slice_fold_le.
    - apply (StronglySorted_fmap ToLower (fold_le ToLower)); [done |].
      by apply sort_Slice_fold_le.
    - by rewrite Hp1, Hp2. }
  split; [done |]. intros Hnd.
  assert (sort1 fetched (less ToLower) = sort2 fetched (less ToLower)) as ->;
    [| done].
  apply (fmap_agree_eq ToLower); [done |].
  intros a b Ha Hb. apply (NoDup_fmap_agree ToLower fetched); [done | |].
  - by rewrite <- (Hp1 fetched (less ToLower)).
  - by rewrite <- (Hp2 fetched (less ToLower)).
Qed.

(** The two generations of [sort.Slice] on three addresses without ties. *)
Lemma entries_fixed_up_to_ties_witness :
  srv (snd (install Fixture.ToLower Fixture.insertionSort Fixture.Remote
              ["b@x.com"; "A@x.com"; "c@x.com"]
              (Fixture.world emptyServer Fixture.account)))
  = srv (snd (install Fixture.ToLower Fixture.quickSort_short Fixture.Remote
                ["b@x.com"; "A@x.com"; "c@x.com"]
                (Fixture.world Fixture.cached Fixture.one_page_account))).
Proof.
  apply (entries_fixed_up_to_ties Fixture.ToLower Fixture.insertionSort
           Fixture.quickSort_short Fixture.Remote
           ["b@x.com"; "A@x.com"; "c@x.com"]
           (Fixture.world emptyServer Fixture.account)
           (Fixture.world Fixture.cached Fixture.one_page_account)
           insertionSort_perm insertionSort_sorted
           quickSort_short_perm quickSort_short_sorted).
  apply (bool_decide_unpack _). vm_compute. exact I.
Defined.

(** ** The invariant and an interleaved refresh *)

(** A cache given as a list and the index built from it. *)
Ltac as_built :=
  match goal with
  | |- cache_inv _ ?s =>
      replace s
        with (Server.mk (Server.list s) (build_index Fixture.ToLower (Server.list s)))
        by (vm_compute; reflexivity);
      apply built_cache_inv;
      [ exact Fixture_ToLower_idem
      | apply (bool_decide_unpack _); vm_compute; exact I ]
  end.

(** The update of a removal on the cache its lookup saw. *)
Lemma cache_invariant_phased_witness :
  cache_inv Fixture.ToLower
    (srv (snd (remove_commit Fixture.Remote "a@x.com" "A@x.com"
                 (Fixture.world Fixture.cached Fixture.account))))
  ∧ collision_free Fixture.ToLower
      (srv (snd (remove_commit Fixture.Remote "a@x.com" "A@x.com"
                   (Fixture.world Fixture.cached Fixture.account)))).
Proof.
  destruct (cache_invariant_phased Fixture.ToLower Fixture.insertionSort
              Fixture.Remote Fixture.ListSuppressedDestinations
              Fixture.DeleteSuppressedDestination Fixture_ToLower_idem)
    as (_ & _ & _ & Hcommit & _).
  apply (Hcommit "a@x.com" "A@x.com"
           (Fixture.world Fixture.cached Fixture.account)).
  - exact Fixture_cached_inv.
  - exact Fixture_cached_free.
  - reflexivity.
  - left. vm_compute. reflexivity.
Defined.

(** C6 as worded fails.  A removal of b@x.com resolves B@x.com in a cache
    that holds B@x.com, and its remote delete succeeds; before it takes
    the exclusive lock a refresh installs b@x.com, which the service now
    lists; the removal's update then deletes the key b@x.com and finds no
    B@x.com to drop.  Every cache on the way satisfies the invariant and
    has no two addresses with one lowercased form, the lock is taken and
    released in order throughout, and the removal is a successful one,
    yet it leaves b@x.com listed with an empty index. *)
Lemma interleaved_refresh_breaks_invariant :
  ∃ w1 w2 w3,
    (cache_inv Fixture.ToLower Fixture.variant_cache
     ∧ collision_free Fixture.ToLower Fixture.variant_cache)
    ∧ remove_resolve Fixture.ToLower Fixture.Remote "b@x.com"
        (Fixture.world Fixture.variant_cache Fixture.variant_account)
      = (Some "B@x.com", w1)
    ∧ client_Delete Fixture.Remote Fixture.DeleteSuppressedDestination
        (DI.mk (Some "B@x.com")) w1
      = (None, w2)
    ∧ refresh Fixture.ToLower Fixture.insertionSort Fixture.Remote
        Fixture.ListSuppressedDestinations 1 w2
      = Some (None, w3)
    ∧ (cache_inv Fixture.ToLower (srv w3) ∧ collision_free Fixture.ToLower (srv w3))
    ∧ Server.list (srv (snd (remove_commit Fixture.Remote "b@x.com" "B@x.com" w3)))
      = ["b@x.com"]
    ∧ Server.index (srv (snd (remove_commit Fixture.Remote "b@x.com" "B@x.com" w3)))
      = ∅
    ∧ lock_run Free
        (trace (snd (remove_commit Fixture.Remote "b@x.com" "B@x.com" w3)))
      = Some Free
    ∧ ¬ cache_inv Fixture.ToLower
          (srv (snd (remove_commit Fixture.Remote "b@x.com" "B@x.com" w3))).
Proof.
  eexists. eexists. eexists.
  split.
  { split; [as_built | apply (bool_decide_unpack _); vm_compute; exact I]. }
  split; [vm_compute; reflexivity |].
  split; [vm_compute; reflexivity |].
  split; [vm_compute; reflexivity |].
  split.
  { split; [as_built | apply (bool_decide_unpack _); vm_compute; exact I]. }
  split; [vm_compute; reflexivity |].
  split; [vm_compute; reflexivity |].
  split; [vm_compute; reflexivity |].
  intros Hinv.
  pose proof (inv_entries _ _ Hinv "b@x.com") as Hentry.
  assert (Some "b@x.com" = @None string) as Habs; [| discriminate Habs].
  rewrite <- Hentry; [vm_compute; reflexivity |].
  vm_compute. apply list_elem_of_here.
Qed.

(** A start against the account whose second page fails. *)
Lemma NewServer_outcomes_witness :
  ∃ w, NewServer Fixture.ToLower Fixture.insertionSort Fixture.Remote
         Fixture.ListSuppressedDestinations (Ok Fixture.broken_account) 2
       = Some (Ok w, ["initial refresh failed: ThrottlingException"])
    ∧ srv w = emptyServer
    ∧ ResponseBody (fst (handleList Fixture.json_quote Fixture.Remote
                           (mkRequest "GET" EmptyString) w))
      = "null" +:+ String newline EmptyString.
Proof.
  destruct (NewServer_outcomes Fixture.ToLower Fixture.insertionSort
              Fixture.json_quote Fixture.Remote Fixture.ListSuppressedDestinations)
    as (_ & Hfailed & _ & _).
  destruct (Hfailed Fixture.broken_account
              [Fixture.page ["b@x.com"; "A@x.com"] (Some "t1")]
              Fixture.broken_account (Some "t1") "ThrottlingException"
              Fixture.broken_account 2%nat)
    as (w & Hnew & Hs & _ & Hnull).
  - eapply follows_cons; [reflexivity | reflexivity |]. apply follows_nil.
  - reflexivity.
  - simpl. lia.
  - exists w. split; [exact Hnew |]. split; [exact Hs | apply Hnull].
Defined.
